(** * Google Tasks to-do platform: ordering, date extraction, item codec

    A shallow embedding of
    [homeassistant/components/google_tasks/todo.py] and the properties of
    its pure core: [_is_priority_task], [_extract_date_time],
    [_convert_todo_item], [_convert_api_item] and [_order_tasks], with
    the listing [todo_items] and the update [async_update_todo_item] of
    the entity.

    Conventions of the embedding.
    - A Python [str] is a Rocq [string]; its characters are read as the
      code points 0..255.  On that range [\d] is [0-9], [\s] and
      [str.isspace] are the twelve code points of [is_space], and
      [str.lower] maps [A-Z] and the upper-case letters of 192..222.
    - A task record (a [dict] with string keys) is a [gmap string string]:
      [d.get(k)] is the lookup [d !! k], [d[k]] raises [KeyError] when the
      lookup is [None].
    - An exception is a value of [exn]; a function that may raise returns
      a [result].  [try ... except ValueError] is a match on the result. *)

From Stdlib Require Import ZArith Ascii Lia.
From stdpp Require Import gmap strings list sorting.

Local Open Scope Z_scope.

(** ** Exceptions *)

Inductive exn : Type :=
| KeyError (key : string)
| ValueError
| TypeError.

Inductive result (A : Type) : Type :=
| Ok (a : A)
| Raise (e : exn).

Arguments Ok {A} a.
Arguments Raise {A} e.

#[global] Instance result_ret : MRet result := @Ok.

#[global] Instance result_bind : MBind result :=
  fun A B (f : A → result B) (m : result A) =>
    match m with
    | Ok a => f a
    | Raise e => Raise e
    end.

Definition is_ok {A : Type} (m : result A) : bool :=
  match m with Ok _ => true | Raise _ => false end.

(** [d[k]] on a dict. *)
Definition getitem (d : gmap string string) (k : string) : result string :=
  match d !! k with
  | Some v => Ok v
  | None => Raise (KeyError k)
  end.

(** ** Characters and strings *)

Definition code (c : ascii) : N := N_of_ascii c.

Definition in_range (lo hi c : ascii) : bool :=
  ((code lo <=? code c) && (code c <=? code hi))%N.

Definition is_digit (c : ascii) : bool := in_range "0" "9" c.

(** [str.isspace] on one character, which is also the class [\s]. *)
Definition is_space (c : ascii) : bool :=
  let n := code c in
  (((9 <=? n) && (n <=? 13)) || ((28 <=? n) && (n <=? 32))
   || (n =? 133) || (n =? 160))%N.

(** [str.lower] on one character. *)
Definition lower_char (c : ascii) : ascii :=
  let n := code c in
  if ((65 <=? n) && (n <=? 90))%N then ascii_of_N (n + 32)
  else if ((192 <=? n) && (n <=? 222) && negb (n =? 215))%N
       then ascii_of_N (n + 32)
       else c.

Fixpoint lower (s : string) : string :=
  match s with
  | EmptyString => EmptyString
  | String c s' => String (lower_char c) (lower s')
  end.

(** [needle in hay] on strings. *)
Fixpoint str_in (needle hay : string) : bool :=
  String.prefix needle hay
  || match hay with
     | EmptyString => false
     | String _ hay' => str_in needle hay'
     end.

(** [x or ''] on an optional string. *)
Definition or_empty (o : option string) : string :=
  match o with
  | Some s => s
  | None => ""
  end.

(** ** Priority detection *)

Definition PRIORITY_KEYWORDS : list string :=
  [ "ASAP"; "Urgent"; "Immediately"; "Critical"; "Important";
    "Top Priority"; "Must Do"; "High Importance" ].

Definition _is_priority_task (title : string) (description : option string)
  : bool :=
  let text := lower (title +:+ " " +:+ or_empty description) in
  existsb (fun keyword => str_in (lower keyword) text) PRIORITY_KEYWORDS.

(** The specification's reading of "appears as a substring". *)
Definition is_substring (needle hay : string) : Prop :=
  ∃ pre post, hay = pre +:+ needle +:+ post.

(** ** Regular expressions

    The fragment of Python's [re] that the module and [datetime.strptime]
    use, with the backtracking order of the [re] engine: alternatives are
    tried left to right, a bounded or unbounded repetition is greedy, and
    the first way to match wins.  [ic] is the [IGNORECASE] flag. *)

Inductive regex : Type :=
| Eps
| Chr (c : ascii)
| Digit
| Space
| Range (lo hi : ascii)
| OneOf (cs : list ascii)
| Cat (r1 r2 : regex)
| Alt (r1 r2 : regex)
| Rep (lo : nat) (hi : option nat) (r : regex)
| Grp (name : string) (r : regex).

Definition captures : Type := list (string * list ascii).

Definition chr_eqb (ic : bool) (c d : ascii) : bool :=
  if ic then Ascii.eqb (lower_char c) (lower_char d) else Ascii.eqb c d.

Definition step_class (p : ascii → bool) {A : Type} (s : list ascii)
    (k : list ascii → option A) : option A :=
  match s with
  | c :: s' => if p c then k s' else None
  | [] => None
  end.

(** The text consumed between the input [s] and its suffix [rest]. *)
Definition consumed (s rest : list ascii) : list ascii :=
  take (length s - length rest)%nat s.

(** The greedy loop of a repetition: at most [n] more iterations of
    [step], at least [lo]; one more iteration is tried before stopping. *)
Fixpoint rep_loop {A : Type}
    (step : list ascii → captures → (list ascii → captures → option A)
            → option A)
    (k : list ascii → captures → option A)
    (n lo : nat) (s : list ascii) (caps : captures) : option A :=
  let stop := match lo with O => k s caps | S _ => None end in
  match n with
  | O => stop
  | S n' =>
      match step s caps (rep_loop step k n' (Nat.pred lo)) with
      | Some a => Some a
      | None => stop
      end
  end.

Fixpoint rmatch {A : Type} (ic : bool) (r : regex) (s : list ascii)
    (caps : captures) (k : list ascii → captures → option A) {struct r}
  : option A :=
  match r with
  | Eps => k s caps
  | Chr c => step_class (chr_eqb ic c) s (fun s' => k s' caps)
  | Digit => step_class is_digit s (fun s' => k s' caps)
  | Space => step_class is_space s (fun s' => k s' caps)
  | Range lo hi => step_class (in_range lo hi) s (fun s' => k s' caps)
  | OneOf cs =>
      step_class (fun c => existsb (chr_eqb ic c) cs) s (fun s' => k s' caps)
  | Cat r1 r2 =>
      rmatch ic r1 s caps (fun s' caps' => rmatch ic r2 s' caps' k)
  | Alt r1 r2 =>
      match rmatch ic r1 s caps k with
      | Some a => Some a
      | None => rmatch ic r2 s caps k
      end
  | Rep lo hi r' =>
      rep_loop (rmatch ic r') k (default (length s) hi) lo s caps
  | Grp name r' =>
      rmatch ic r' s caps
        (fun s' caps' => k s' ((name, consumed s s') :: caps'))
  end.

(** The words a regular expression denotes, and the names of its groups. *)
Fixpoint lang (ic : bool) (r : regex) (w : list ascii) : Prop :=
  match r with
  | Eps => w = []
  | Chr c => ∃ d, w = [d] ∧ chr_eqb ic c d = true
  | Digit => ∃ d, w = [d] ∧ is_digit d = true
  | Space => ∃ d, w = [d] ∧ is_space d = true
  | Range lo hi => ∃ d, w = [d] ∧ in_range lo hi d = true
  | OneOf cs => ∃ d, w = [d] ∧ existsb (chr_eqb ic d) cs = true
  | Cat r1 r2 => ∃ w1 w2, w = w1 ++ w2 ∧ lang ic r1 w1 ∧ lang ic r2 w2
  | Alt r1 r2 => lang ic r1 w ∨ lang ic r2 w
  | Rep lo hi r' =>
      ∃ ws, w = concat ws ∧ (lo ≤ length ws)%nat
            ∧ (∀ n, hi = Some n → (length ws ≤ n)%nat)
            ∧ Forall (lang ic r') ws
  | Grp _ r' => lang ic r' w
  end.

Fixpoint group_names (r : regex) : list string :=
  match r with
  | Cat r1 r2 | Alt r1 r2 => group_names r1 ++ group_names r2
  | Rep _ _ r' => group_names r'
  | Grp name r' => name :: group_names r'
  | _ => []
  end.

(** What a successful run of a matcher for [r] under [ic] establishes. *)
Definition run_ok {A : Type} (ic : bool) (r : regex) (names : list string)
    (s : list ascii) (caps : captures)
    (k : list ascii → captures → option A) (a : A) : Prop :=
  ∃ w s' new,
    s = w ++ s' ∧ lang ic r w
    ∧ Forall (fun p => p.1 ∈ names) new
    ∧ k s' (new ++ caps) = Some a.

(** [re.search(pattern, text)] followed by [.group()]: the leftmost match. *)
Fixpoint search_from (r : regex) (s : list ascii) : option (list ascii) :=
  match rmatch false r s [] (fun rest _ => Some rest) with
  | Some rest => Some (consumed s rest)
  | None =>
      match s with
      | [] => None
      | _ :: s' => search_from r s'
      end
  end.

Definition re_search (r : regex) (text : string) : option string :=
  String.string_of_list_ascii <$> search_from r (String.list_ascii_of_string text).

(** [compiled.match(data)] with [IGNORECASE]: the rest of the data after
    the match and the named groups. *)
Definition re_match_ic (r : regex) (data : string)
  : option (list ascii * captures) :=
  rmatch true r (String.list_ascii_of_string data) []
    (fun rest caps => Some (rest, caps)).

(** Sequence, ordered choice and literal words. *)
Definition cat_all (rs : list regex) : regex := foldr Cat Eps rs.

Definition alt_all (first : regex) (rest : list regex) : regex :=
  foldl Alt first rest.

Definition lit (w : string) : regex :=
  cat_all (Chr <$> String.list_ascii_of_string w).

(** ** Dates and times

    [datetime.datetime]: the civil fields and [tzinfo], which is [None]
    for a naive value and a fixed offset from UTC, in minutes, for an
    aware one. *)

Record datetime : Type := mkdt {
  year : Z;
  month : Z;
  day : Z;
  hour : Z;
  minute : Z;
  second : Z;
  microsecond : Z;
  tzinfo : option Z
}.

Definition _is_leap (y : Z) : bool :=
  (y mod 4 =? 0) && (negb (y mod 100 =? 0) || (y mod 400 =? 0)).

Definition _DAYS_IN_MONTH : list Z :=
  [31; 28; 31; 30; 31; 30; 31; 31; 30; 31; 30; 31].

Definition _days_in_month (y m : Z) : Z :=
  if (m =? 2) && _is_leap y then 29
  else default 0 (_DAYS_IN_MONTH !! Z.to_nat (m - 1)).

Definition _days_before_year (y : Z) : Z :=
  let y' := y - 1 in
  y' * 365 + y' / 4 - y' / 100 + y' / 400.

Definition _days_before_month (y m : Z) : Z :=
  foldr Z.add 0 (take (Z.to_nat (m - 1)) _DAYS_IN_MONTH)
  + (if (2 <? m) && _is_leap y then 1 else 0).

Definition _ymd2ord (y m d : Z) : Z :=
  _days_before_year y + _days_before_month y m + d.

(** The checks of the [datetime] constructor. *)
Definition valid_fields (y mo d h mi s us : Z) : bool :=
  (1 <=? y) && (y <=? 9999) && (1 <=? mo) && (mo <=? 12)
  && (1 <=? d) && (d <=? _days_in_month y mo)
  && (0 <=? h) && (h <=? 23) && (0 <=? mi) && (mi <=? 59)
  && (0 <=? s) && (s <=? 59) && (0 <=? us) && (us <=? 999999).

Definition new_datetime (y mo d h mi s us : Z) (tz : option Z)
  : result datetime :=
  if valid_fields y mo d h mi s us
  then Ok (mkdt y mo d h mi s us tz)
  else Raise ValueError.

(** [d.replace(hour=h, minute=mi)]. *)
Definition replace_hour_minute (d : datetime) (h mi : Z) : result datetime :=
  new_datetime (year d) (month d) (day d) h mi (second d) (microsecond d)
               (tzinfo d).

(** [datetime.max], a naive value. *)
Definition datetime_max : datetime :=
  mkdt 9999 12 31 23 59 59 999999 None.

(** Microseconds since the start of day 0 of the proleptic calendar, on
    the value's own clock. *)
Definition local_us (d : datetime) : Z :=
  ((((_ymd2ord (year d) (month d) (day d) * 24 + hour d) * 60 + minute d)
    * 60 + second d) * 1000000) + microsecond d.

(** The same instant on the UTC clock, for an aware value. *)
Definition utc_us (d : datetime) (offset : Z) : Z :=
  local_us d - offset * 60000000.

(** The instant that comparisons read: two naive values compare by their
    fields, two aware values by their UTC instants. *)
Definition instant (d : datetime) : Z :=
  match tzinfo d with
  | None => local_us d
  | Some off => utc_us d off
  end.

Definition is_aware (d : datetime) : bool :=
  match tzinfo d with Some _ => true | None => false end.

(** [a == b] never raises: a naive and an aware value are unequal. *)
Definition dt_eqb (a b : datetime) : bool :=
  Bool.eqb (is_aware a) (is_aware b) && (instant a =? instant b).

(** [a < b] raises [TypeError] between a naive and an aware value. *)
Definition dt_lt (a b : datetime) : result bool :=
  if Bool.eqb (is_aware a) (is_aware b)
  then Ok (instant a <? instant b)
  else Raise TypeError.

(** A month of the year and a day of that month. *)
Definition valid_date (y m d : Z) : Prop :=
  1 ≤ m ≤ 12 ∧ 1 ≤ d ≤ _days_in_month y m.

(** The fields of a value as CPython compares them. *)
Definition fields (d : datetime) : list Z :=
  [year d; month d; day d; hour d; minute d; second d; microsecond d].

(** [a < b] on tuples of integers. *)
Fixpoint lex_ltb (a b : list Z) : bool :=
  match a, b with
  | x :: a', y :: b' => (x <? y) || ((x =? y) && lex_ltb a' b')
  | _, _ => false
  end.

(** A value that passes the checks of the constructor. *)
Definition valid (d : datetime) : Prop :=
  valid_fields (year d) (month d) (day d) (hour d) (minute d) (second d)
    (microsecond d) = true.

(** ** [datetime.strptime]

    CPython's [_strptime]: the format is turned into a regular expression
    with one named group per directive, the data must match it from its
    start ([IGNORECASE]) and be consumed whole, and the groups are
    converted.  The directives are those of the C locale; the ones this
    module's formats use are modelled, any other is refused. *)

Definition MONTH_ABBR : list string :=
  [ "jan"; "feb"; "mar"; "apr"; "may"; "jun";
    "jul"; "aug"; "sep"; "oct"; "nov"; "dec" ].

Definition directive (c : ascii) : option regex :=
  match c with
  | "d"%char =>
      Some (Grp "d" (alt_all (Cat (Chr "3") (Range "0" "1"))
                       [ Cat (Range "1" "2") Digit;
                         Cat (Chr "0") (Range "1" "9");
                         Range "1" "9";
                         Cat (Chr " ") (Range "1" "9") ]))
  | "m"%char =>
      Some (Grp "m" (alt_all (Cat (Chr "1") (Range "0" "2"))
                       [ Cat (Chr "0") (Range "1" "9"); Range "1" "9" ]))
  | "Y"%char => Some (Grp "Y" (Rep 4 (Some 4%nat) Digit))
  | "H"%char =>
      Some (Grp "H" (alt_all (Cat (Chr "2") (Range "0" "3"))
                       [ Cat (Range "0" "1") Digit; Digit ]))
  | "I"%char =>
      Some (Grp "I" (alt_all (Cat (Chr "1") (Range "0" "2"))
                       [ Cat (Chr "0") (Range "1" "9"); Range "1" "9" ]))
  | "M"%char => Some (Grp "M" (Alt (Cat (Range "0" "5") Digit) Digit))
  | "p"%char => Some (Grp "p" (Alt (lit "am") (lit "pm")))
  | "b"%char =>
      Some (Grp "b" (alt_all (lit "jan") (lit <$> drop 1 MONTH_ABBR)))
  | "%"%char => Some (Chr "%")
  | _ => None
  end.

(** [TimeRE.pattern]: a run of white space in the format stands for
    [\s+], [%x] for the directive's group, any other character for
    itself.  [in_ws] tells that the previous character was white space. *)
Fixpoint format_pattern (in_ws : bool) (fmt : list ascii) : result regex :=
  match fmt with
  | [] => Ok Eps
  | c :: fmt' =>
      if is_space c then
        r ← format_pattern true fmt';
        Ok (if in_ws then r else Cat (Rep 1 None Space) r)
      else if Ascii.eqb c "%" then
        match fmt' with
        | [] => Raise ValueError
        | x :: fmt'' =>
            match directive x with
            | None => Raise ValueError
            | Some g => r ← format_pattern false fmt''; Ok (Cat g r)
            end
        end
      else
        r ← format_pattern false fmt'; Ok (Cat (Chr c) r)
  end.

(** [int(group)]: decimal digits after an optional leading blank. *)
Definition py_int (cs : list ascii) : Z :=
  foldl (fun acc c =>
           if is_digit c then 10 * acc + Z.of_N (code c - 48) else acc)
        0 cs.

Definition group (name : string) (caps : captures) : option (list ascii) :=
  snd <$> List.find (fun p => String.eqb (fst p) name) caps.

Definition lower_list (cs : list ascii) : list ascii := lower_char <$> cs.

(** Position of a lower-cased month abbreviation in [a_month], from 1. *)
Fixpoint month_index (w : string) (names : list string) (i : Z) : Z :=
  match names with
  | [] => i
  | n :: names' => if String.eqb n w then i else month_index w names' (i + 1)
  end.

(** The hour of a 12-hour clock, given the [%p] group if any. *)
Definition hour_12 (h : Z) (ampm : string) : Z :=
  if String.eqb ampm "" || String.eqb ampm "am"
  then (if h =? 12 then 0 else h)
  else if String.eqb ampm "pm"
       then (if h =? 12 then h else h + 12)
       else h.

Definition strptime (data format : string) : result datetime :=
  r ← format_pattern false (String.list_ascii_of_string format);
  match re_match_ic r data with
  | None => Raise ValueError
  | Some (_ :: _, _) => Raise ValueError
  | Some ([], caps) =>
      let num name dflt := default dflt (py_int <$> group name caps) in
      let mo :=
        match group "b" caps with
        | Some w =>
            month_index (String.string_of_list_ascii (lower_list w))
                        MONTH_ABBR 1
        | None => num "m" 1
        end in
      let ampm :=
        String.string_of_list_ascii
          (lower_list (default [] (group "p" caps))) in
      let h :=
        match group "I" caps with
        | Some i => hour_12 (py_int i) ampm
        | None => num "H" 0
        end in
      new_datetime (num "Y" 1900) mo (num "d" 1) h (num "M" 0) 0 0 None
  end.

(** ** The pattern tables of the module *)

Definition MON : regex :=
  alt_all (lit "Jan")
    (lit <$> [ "Feb"; "Mar"; "Apr"; "May"; "Jun"; "Jul"; "Aug"; "Sep";
               "Oct"; "Nov"; "Dec" ]).

Definition digits (lo hi : nat) : regex := Rep lo (Some hi) Digit.

Definition DATE_PATTERNS : list (regex * string) :=
  [ (cat_all [digits 4 4; Chr "/"; digits 2 2; Chr "/"; digits 2 2],
     "%Y/%m/%d");
    (cat_all [digits 2 2; Chr "/"; digits 2 2; Chr "/"; digits 4 4],
     "%d/%m/%Y");
    (cat_all [digits 2 2; Chr "/"; digits 2 2; Chr "/"; digits 4 4],
     "%m/%d/%Y");
    (cat_all [digits 1 2; Space; MON; Space; digits 4 4], "%d %b %Y");
    (cat_all [MON; Space; digits 1 2; Rep 0 (Some 1%nat) (Chr ",");
              Space; digits 4 4],
     "%b %d %Y");
    (cat_all [MON; Space; digits 1 2; Space; digits 4 4], "%b %d %Y");
    (cat_all [digits 4 4; Space; MON; Space; digits 1 2], "%Y %b %d");
    (cat_all [digits 4 4; Space; digits 1 2; Space; MON], "%Y %d %b") ].

(** The pattern shared by the second and the third candidate. *)
Definition NN_NN_NNNN : regex :=
  cat_all [digits 2 2; Chr "/"; digits 2 2; Chr "/"; digits 4 4].

Definition NNNN_NN_NN : regex :=
  cat_all [digits 4 4; Chr "/"; digits 2 2; Chr "/"; digits 2 2].

Definition TIME_PATTERN : regex :=
  Grp "1"
    (cat_all [ digits 1 2; Chr ":"; digits 2 2;
               Rep 0 (Some 1%nat)
                 (cat_all [ Rep 0 (Some 1%nat) Space; OneOf ["A"; "P"]%char;
                            Chr "M" ]) ]).

(** One or two digits, a colon, two digits, and then nothing or an
    upper-case [AM] or [PM] after at most one white-space character. *)
Definition time_shape (t : string) : Prop :=
  ∃ hh mm suffix : list ascii,
    String.list_ascii_of_string t = hh ++ ":"%char :: mm ++ suffix
    ∧ Forall (fun c => is_digit c = true) hh ∧ (1 ≤ length hh ≤ 2)%nat
    ∧ Forall (fun c => is_digit c = true) mm ∧ length mm = 2%nat
    ∧ (suffix = []
       ∨ ∃ blank half,
           suffix = blank ++ [half; "M"%char]
           ∧ (half = "A"%char ∨ half = "P"%char)
           ∧ (blank = [] ∨ ∃ c, blank = [c] ∧ is_space c = true)).

(** ** Date and time extraction *)

(** [try: body except ValueError: handler]. *)
Definition except_ValueError {A : Type} (body handler : result A)
  : result A :=
  match body with
  | Raise ValueError => handler
  | r => r
  end.

(** The [for] loop over the patterns: [break] on the first parse that
    succeeds, [continue] on [ValueError]. *)
Fixpoint date_loop (patterns : list (regex * string)) (text : string)
  : result (option datetime) :=
  match patterns with
  | [] => Ok None
  | (pattern, date_format) :: rest =>
      match re_search pattern text with
      | Some date_match =>
          except_ValueError
            (d ← strptime date_match date_format; Ok (Some d))
            (date_loop rest text)
      | None => date_loop rest text
      end
  end.

Fixpoint lstrip (s : list ascii) : list ascii :=
  match s with
  | c :: s' => if is_space c then lstrip s' else s
  | [] => []
  end.

(** [s.strip()]. *)
Definition strip (s : string) : string :=
  String.string_of_list_ascii
    (reverse (lstrip (reverse (lstrip (String.list_ascii_of_string s))))).

(** The parse of the time substring inside the [try]: the 12-hour clock
    when the substring holds [AM] or [PM], the 24-hour clock otherwise. *)
Definition parse_time_obj (extracted_time : string) : result datetime :=
  if str_in "AM" extracted_time || str_in "PM" extracted_time
  then strptime (strip extracted_time) "%I:%M %p"
  else strptime (strip extracted_time) "%H:%M".

Definition _extract_date_time (text : string)
  : result (option datetime * option string) :=
  extracted_date ← date_loop DATE_PATTERNS text;
  let extracted_time := re_search TIME_PATTERN text in
  match extracted_date, extracted_time with
  | Some date, Some time =>
      if String.eqb time "" then Ok (extracted_date, extracted_time)
      else
        except_ValueError
          (time_obj ← parse_time_obj time;
           date' ← replace_hour_minute date (hour time_obj) (minute time_obj);
           Ok (Some date', extracted_time))
          (Ok (extracted_date, extracted_time))
  | _, _ => Ok (extracted_date, extracted_time)
  end.

(** The date the extractor finds in the text of a record. *)
Definition extracted_date (task : gmap string string) : option datetime :=
  match _extract_date_time
          (default "" (task !! "title") +:+ " "
           +:+ default "" (task !! "notes")) with
  | Ok (date, _) => date
  | Raise _ => None
  end.

(** ** [datetime.isoformat] *)

Definition digit_char (n : Z) : ascii :=
  ascii_of_N (48 + Z.to_N (n mod 10)).

(** [n] in decimal on [width] digits, zero padded. *)
Fixpoint zpad (width : nat) (n : Z) (acc : string) : string :=
  match width with
  | O => acc
  | S w => zpad w (n / 10) (String (digit_char n) acc)
  end.

Definition format_offset (off : Z) : string :=
  (if off <? 0 then "-" else "+")
  +:+ zpad 2 (Z.abs off / 60) "" +:+ ":" +:+ zpad 2 (Z.abs off mod 60) "".

(** The date and time part, without offset. *)
Definition isoformat_local (d : datetime) : string :=
  zpad 4 (year d) "" +:+ "-" +:+ zpad 2 (month d) "" +:+ "-"
  +:+ zpad 2 (day d) "" +:+ "T" +:+ zpad 2 (hour d) "" +:+ ":"
  +:+ zpad 2 (minute d) "" +:+ ":" +:+ zpad 2 (second d) ""
  +:+ (if microsecond d =? 0 then "" else "." +:+ zpad 6 (microsecond d) "").

(** [d.isoformat()]: an aware value carries its offset. *)
Definition isoformat (d : datetime) : string :=
  isoformat_local d
  +:+ match tzinfo d with
      | Some off => format_offset off
      | None => ""
      end.

(** ** Items *)

Inductive TodoItemStatus : Type :=
| NEEDS_ACTION
| COMPLETED.

Record TodoItem : Type := mkTodoItem {
  summary : string;
  uid : option string;
  status : option TodoItemStatus;
  due : option datetime;
  description : option string
}.

(** [TODO_STATUS_MAP.get(s, NEEDS_ACTION)]. *)
Definition TODO_STATUS_MAP (s : string) : TodoItemStatus :=
  if String.eqb s "completed" then COMPLETED else NEEDS_ACTION.

(** [TODO_STATUS_MAP_INV.get(s, "needsAction")]. *)
Definition TODO_STATUS_MAP_INV (s : option TodoItemStatus) : string :=
  match s with
  | Some COMPLETED => "completed"
  | Some NEEDS_ACTION | None => "needsAction"
  end.

Definition _format_due_datetime (due : datetime) : string :=
  isoformat due +:+ "Z".

(** Modelled from the spec: [parse_datetime] and [as_utc] of
    [homeassistant.util.dt] are called by the module and missing from the
    source tree; they are parameters.  [parse_datetime] returns [None] on
    a string that is not "parseable"; [as_utc] gives the timestamp
    "converted to UTC", an aware value of offset zero. *)
Class dt_util : Type := {
  parse_datetime : string → option datetime;
  as_utc : datetime → datetime;
  as_utc_tzinfo : ∀ d, tzinfo (as_utc d) = Some 0
}.

(** The sort key of a task: completed flag, not-priority flag, due date. *)
Definition sort_key_t : Type := bool * bool * option datetime.

(** [a == b] on the third component of a key. *)
Definition due_eqb (a b : option datetime) : bool :=
  match a, b with
  | None, None => true
  | Some x, Some y => dt_eqb x y
  | _, _ => false
  end.

(** [a < b] on the third component: [None] is not ordered. *)
Definition due_lt (a b : option datetime) : result bool :=
  match a, b with
  | Some x, Some y => dt_lt x y
  | _, _ => Raise TypeError
  end.

Definition bool_lt (a b : bool) : bool := negb a && b.

(** [a < b] on tuples: the first pair of unequal components decides, and
    equal tuples are not less. *)
Definition tuple_lt (a b : sort_key_t) : result bool :=
  let '(c1, p1, d1) := a in
  let '(c2, p2, d2) := b in
  if negb (Bool.eqb c1 c2) then Ok (bool_lt c1 c2)
  else if negb (Bool.eqb p1 p2) then Ok (bool_lt p1 p2)
  else if due_eqb d1 d2 then Ok false
  else due_lt d1 d2.

(** The two flags of a key as a number, the kind of its due (missing,
    naive or aware) and the instant it is compared by. *)
Definition flag_rank (k : sort_key_t) : Z :=
  (if k.1.1 then 2 else 0) + (if k.1.2 then 1 else 0).

Definition due_kind (d : option datetime) : option bool := is_aware <$> d.

Definition due_instant (d : option datetime) : Z :=
  match d with
  | Some x => instant x
  | None => 0
  end.

(** Two keys can be compared when their flags differ or their dues are of
    one kind. *)
Definition comparable (a b : sort_key_t) : Prop :=
  flag_rank a ≠ flag_rank b ∨ due_kind a.2 = due_kind b.2.

Definition key_less (a b : sort_key_t) : Prop :=
  flag_rank a < flag_rank b
  ∨ (flag_rank a = flag_rank b ∧ due_instant a.2 < due_instant b.2).

(** ** [sorted(l, key=f)]

    The keys are computed first, in order; the list is then sorted with
    [<] on the keys only.  [sorted] is stable, and it raises what a key
    or a comparison raises.  The model is the stable insertion sort; on
    keys ordered by [tuple_lt] any stable comparison sort returns the same
    list or fails on the same inputs (see [sort_decorated_ok_iff]). *)
Section sorted.
Context {K A : Type} (lt : K → K → result bool).

Fixpoint insert_sorted (x : K * A) (l : list (K * A))
  : result (list (K * A)) :=
  match l with
  | [] => Ok [x]
  | y :: l' =>
      b ← lt (fst y) (fst x);
      if b : bool then r ← insert_sorted x l'; Ok (y :: r)
      else Ok (x :: y :: l')
  end.

Fixpoint sort_decorated (l : list (K * A)) : result (list (K * A)) :=
  match l with
  | [] => Ok []
  | x :: l' => s ← sort_decorated l'; insert_sorted x s
  end.

Fixpoint decorate (key : A → result K) (l : list A)
  : result (list (K * A)) :=
  match l with
  | [] => Ok []
  | x :: l' => k ← key x; ks ← decorate key l'; Ok ((k, x) :: ks)
  end.

Definition sorted (key : A → result K) (l : list A) : result (list A) :=
  ks ← decorate key l;
  s ← sort_decorated ks;
  Ok ((s : list (K * A)).*2).

(** [x] may stand before [y]: the key of [y] is not less. *)
Definition not_after (x y : K * A) : Prop := lt y.1 x.1 = Ok false.

(** The comparison that places [y] against an earlier [x] is defined. *)
Definition compared (x y : K * A) : Prop := is_ok (lt y.1 x.1) = true.

(** [k] and the key of [x] are ordered neither way. *)
Definition tied (k : K) (x : K * A) : bool :=
  match lt k x.1, lt x.1 k with
  | Ok false, Ok false => true
  | _, _ => false
  end.

(** Every element carries its own key. *)
Definition keyed (key : A → result K) (ks : list (K * A)) : Prop :=
  Forall (fun p => key p.2 = Ok p.1) ks.

End sorted.

Section todo.
Context `{dt_util}.

Definition _convert_todo_item (item : TodoItem) : gmap string string :=
  let result := <["title" := summary item]> (∅ : gmap string string) in
  let result := <["status" := TODO_STATUS_MAP_INV (status item)]> result in
  let result :=
    match due item with
    | Some d => <["due" := _format_due_datetime (as_utc d)]> result
    | None => result
    end in
  match description item with
  | Some (String _ _ as notes) => <["notes" := notes]> result
  | _ => result
  end.

Definition _convert_api_item (item : gmap string string) : result TodoItem :=
  due ←
    match item !! "due" with
    | Some due_str => Ok (parse_datetime due_str)
    | None =>
        let title := default "" (item !! "title") in
        let notes := default "" (item !! "notes") in
        r ← _extract_date_time (title +:+ " " +:+ notes);
        Ok (fst r)
    end;
  title ← getitem item "title";
  id ← getitem item "id";
  Ok {| summary := title;
        uid := Some id;
        status := Some (TODO_STATUS_MAP (default "" (item !! "status")));
        due := due;
        description := item !! "notes" |}.

Definition get_due_date (task : gmap string string)
  : result (option datetime) :=
  match task !! "due" with
  | Some (String _ _ as due_str) => Ok (parse_datetime due_str)
  | _ =>
      let title := default "" (task !! "title") in
      let notes := default "" (task !! "notes") in
      r ← _extract_date_time (title +:+ " " +:+ notes);
      Ok (Some (default datetime_max (fst r)))
  end.

Definition is_completed (task : gmap string string) : bool :=
  bool_decide (task !! "status" = Some "completed").

Definition sort_key (task : gmap string string) : result sort_key_t :=
  let completed := is_completed task in
  title ← getitem task "title";
  let is_priority := _is_priority_task title (task !! "notes") in
  due_date ← get_due_date task;
  Ok (completed, negb is_priority, due_date).

Definition _order_tasks (tasks : list (gmap string string))
  : result (list (gmap string string)) :=
  let incomplete_tasks := filter (fun t => is_completed t = false) tasks in
  let completed_tasks := filter (fun t => is_completed t = true) tasks in
  sorted_incomplete ← sorted tuple_lt sort_key incomplete_tasks;
  sorted_completed ← sorted tuple_lt sort_key completed_tasks;
  Ok (sorted_completed ++ sorted_incomplete).

(** [t] may stand before [u]: the key of [u] is not less than the key of
    [t]. *)
Definition key_le (t u : gmap string string) : Prop :=
  ∃ kt ku, sort_key t = Ok kt ∧ sort_key u = Ok ku ∧ tuple_lt ku kt = Ok false.

(** The keys of [t] and [u] are ordered neither way. *)
Definition ties_with (t u : gmap string string) : bool :=
  match sort_key t, sort_key u with
  | Ok kt, Ok ku => tied tuple_lt kt (ku, u)
  | _, _ => false
  end.

(** Tasks with equal flags have dues of one kind: all naive, all aware,
    or all missing. *)
Definition uniform_ties (tasks : list (gmap string string)) : Prop :=
  ∀ t1 t2 k1 k2,
    t1 ∈ tasks → t2 ∈ tasks → sort_key t1 = Ok k1 → sort_key t2 = Ok k2 →
    k1.1 = k2.1 → due_kind k1.2 = due_kind k2.2.

End todo.

(** ** The entity

    [GoogleTaskTodoListEntity]: the listing of the items and the update of
    one item.  The coordinator's data is its last snapshot of the remote
    records, [None] before the first refresh. *)

(** A task has a priority phrase in its title or notes. *)
Definition has_priority (task : gmap string string) : bool :=
  _is_priority_task (default "" (task !! "title")) (task !! "notes").

(** What may stand earlier in a listing: a pending task never stands
    before a completed one, and among tasks of one completion state a
    task without priority never stands before one with priority. *)
Definition listed_before (t u : gmap string string) : Prop :=
  (is_completed u = true → is_completed t = true)
  ∧ (is_completed t = is_completed u →
     has_priority u = true → has_priority t = true).

(** [next((i for i in data if i["id"] == uid), None)]: the records are
    read in order up to the first whose id is [uid]. *)
Fixpoint find_by_id (data : list (gmap string string)) (uid : option string)
  : result (option (gmap string string)) :=
  match data with
  | [] => Ok None
  | i :: rest =>
      id ← getitem i "id";
      if bool_decide (Some id = uid) then Ok (Some i) else find_by_id rest uid
  end.

(** The calls of [async_update_todo_item] on its collaborators, in order,
    and the way it ends. *)
Inductive remote_call : Type :=
| Patch (task_list_id : string) (uid : option string)
        (task : gmap string string)
| Refresh
| LogError (err : string).

Inductive outcome : Type :=
| Returned
| Raised (e : exn)
| RaisedApiError (err : string).

(** A list comprehension [[f(x) for x in l]] over a function that may
    raise: the elements are converted in order. *)
Fixpoint map_result {A B : Type} (f : A → result B) (l : list A)
  : result (list B) :=
  match l with
  | [] => Ok []
  | x :: l' => y ← f x; ys ← map_result f l'; Ok (y :: ys)
  end.

Section entity.
Context `{dt_util}.

(** The property [todo_items]. *)
Definition todo_items (data : option (list (gmap string string)))
  : result (option (list TodoItem)) :=
  match data with
  | None => Ok None
  | Some tasks =>
      ordered ← _order_tasks tasks;
      items ← map_result _convert_api_item ordered;
      Ok (Some items)
  end.

(** [async_update_todo_item].  [patch] is the remote call: it returns
    [None] when it succeeds and the [GoogleTasksApiError] it raises
    otherwise; the refresh of the coordinator does not raise. *)
Definition async_update_todo_item
    (patch : string → option string → gmap string string → option string)
    (task_list_id : string) (data : option (list (gmap string string)))
    (item : TodoItem) : list remote_call * outcome :=
  match data with
  | None => ([], Raised TypeError)
  | Some tasks =>
      match find_by_id tasks (uid item) with
      | Raise e => ([], Raised e)
      | Ok None => ([], Returned)
      | Ok (Some existing_item) =>
          if bool_decide (existing_item = ∅) then ([], Returned)
          else
            let updated_item := _convert_todo_item item in
            match patch task_list_id (uid item) updated_item with
            | None =>
                ([Patch task_list_id (uid item) updated_item; Refresh],
                 Returned)
            | Some err =>
                ([Patch task_list_id (uid item) updated_item; LogError err],
                 RaisedApiError err)
            end
      end
  end.

End entity.

(** ** An instance of the date helpers *)

(** [datetime._ord2ymd]: the civil date of a day number. *)
Definition _ord2ymd (ordinal : Z) : Z * Z * Z :=
  let n := ordinal - 1 in
  let n400 := n / 146097 in
  let n := n mod 146097 in
  let n100 := n / 36524 in
  let n := n mod 36524 in
  let n4 := n / 1461 in
  let n := n mod 1461 in
  let n1 := n / 365 in
  let n := n mod 365 in
  let y := n400 * 400 + 1 + n100 * 100 + n4 * 4 + n1 in
  if (n1 =? 4) || (n100 =? 4) then (y - 1, 12, 31)
  else
    let leapyear := (n1 =? 3) && (negb (n4 =? 24) || (n100 =? 3)) in
    let m := (n + 50) / 32 in
    let preceding := _days_before_month (if leapyear then 4 else 1) m in
    if n <? preceding
    then (y, m - 1,
          n - _days_before_month (if leapyear then 4 else 1) (m - 1) + 1)
    else (y, m, n - preceding + 1).

(** The aware UTC value of an instant given in microseconds. *)
Definition of_utc_us (us : Z) : datetime :=
  let s := us / 1000000 in
  let mi := s / 60 in
  let h := mi / 60 in
  let '(y, mo, d) := _ord2ymd (h / 24) in
  mkdt y mo d (h mod 24) (mi mod 60) (s mod 60) (us mod 1000000) (Some 0).

(** Modelled from the spec: [dt_util.as_utc] is missing from the source
    tree.  The due timestamp is "converted to UTC": an aware value is
    moved to offset zero, a naive one is read on the default time zone,
    which is UTC. *)
Definition as_utc_model (d : datetime) : datetime :=
  match tzinfo d with
  | None =>
      mkdt (year d) (month d) (day d) (hour d) (minute d) (second d)
           (microsecond d) (Some 0)
  | Some 0 =>
      mkdt (year d) (month d) (day d) (hour d) (minute d) (second d)
           (microsecond d) (Some 0)
  | Some off => of_utc_us (utc_us d off)
  end.

Definition ISO_8601 : regex :=
  cat_all
    [ Grp "Y" (digits 4 4); Chr "-"; Grp "m" (digits 2 2); Chr "-";
      Grp "d" (digits 2 2); OneOf ["T"; " "]%char;
      Grp "H" (digits 2 2); Chr ":"; Grp "M" (digits 2 2);
      Rep 0 (Some 1%nat)
        (cat_all [ Chr ":"; Grp "S" (digits 2 2);
                   Rep 0 (Some 1%nat)
                     (cat_all [Chr "."; Grp "f" (digits 1 6)]) ]);
      Rep 0 (Some 1%nat)
        (Grp "z"
           (Alt (Chr "Z")
                (cat_all [ Grp "sign" (OneOf ["+"; "-"]%char);
                           Grp "zh" (digits 2 2); Chr ":";
                           Grp "zm" (digits 2 2) ]))) ].

(** A fraction of a second on up to six digits, in microseconds. *)
Definition fraction_us (cs : list ascii) : Z :=
  py_int (take 6 (cs ++ replicate 6 "0"%char)).

(** Modelled from the spec: [dt_util.parse_datetime] is missing from the
    source tree.  The [due] field is an "ISO-8601 UTC timestamp string";
    a string with a [Z] or a numeric offset gives an aware value, one
    without gives a naive value, and any other string is not parseable. *)
Definition parse_datetime_model (s : string) : option datetime :=
  match rmatch false ISO_8601 (String.list_ascii_of_string s) []
          (fun rest caps =>
             match rest with [] => Some caps | _ :: _ => None end) with
  | None => None
  | Some caps =>
      let num name := default 0 (py_int <$> group name caps) in
      let tz :=
        match group "z" caps with
        | None => None
        | Some _ =>
            let off := num "zh" * 60 + num "zm" in
            Some (if bool_decide (group "sign" caps = Some ["-"%char])
                  then - off else off)
        end in
      match new_datetime (num "Y") (num "m") (num "d") (num "H") (num "M")
              (num "S") (default 0 (fraction_us <$> group "f" caps)) tz with
      | Ok d => Some d
      | Raise _ => None
      end
  end.

#[global] Instance dt_util_model : dt_util.
Proof.
  refine {| parse_datetime := parse_datetime_model; as_utc := as_utc_model |}.
  intros d. unfold as_utc_model, of_utc_us.
  destruct (tzinfo d) as [[|p|p]|]; try reflexivity;
    destruct (_ord2ymd _) as [[? ?] ?]; reflexivity.
Defined.

(** ** Characters of texts and patterns *)

(** No character of [text] is a decimal digit. *)
Definition no_digit (text : string) : Prop :=
  Forall (fun c => is_digit c = false) (String.list_ascii_of_string text).

(** Every word of [r] holds a digit. *)
Definition needs_digit (r : regex) : Prop :=
  ∀ w, lang false r w → Exists (fun c => is_digit c = true) w.

(** No atom of [r] accepts the character [c]. *)
Fixpoint rejects (ic : bool) (c : ascii) (r : regex) : bool :=
  match r with
  | Eps => true
  | Chr d => negb (chr_eqb ic d c)
  | Digit => negb (is_digit c)
  | Space => negb (is_space c)
  | Range lo hi => negb (in_range lo hi c)
  | OneOf cs => negb (existsb (chr_eqb ic c) cs)
  | Cat r1 r2 | Alt r1 r2 => rejects ic c r1 && rejects ic c r2
  | Rep _ _ r' | Grp _ r' => rejects ic c r'
  end.

(** Every word of [r] holds a white-space character, by the shape of
    [r]. *)
Fixpoint demands_space (r : regex) : bool :=
  match r with
  | Space => true
  | Cat r1 r2 => demands_space r1 || demands_space r2
  | Alt r1 r2 => demands_space r1 && demands_space r2
  | Rep lo _ r' => (1 <=? lo)%nat && demands_space r'
  | Grp _ r' => demands_space r'
  | _ => false
  end.

(** ** Sample records *)

(** A [due] that does not parse, beside a title that holds a date. *)
Definition task_unparseable_due : gmap string string :=
  <["id" := "1"]> (<["title" := "Report due 27 Nov 2024"]>
    (<["due" := "tomorrow"]> ∅)).

(** Two pending tasks without priority phrase: one with a [due] that
    carries an offset, one without [due]; and a record without title. *)
Definition task_due_offset : gmap string string :=
  <["id" := "1"]> (<["title" := "Pay rent"]> (<["status" := "needsAction"]>
    (<["due" := "2024-11-28T10:00:00Z"]> ∅))).

Definition task_no_due : gmap string string :=
  <["id" := "2"]> (<["title" := "Call the bank"]>
    (<["status" := "needsAction"]> ∅)).

Definition task_no_title : gmap string string := <["id" := "3"]> ∅.

Definition mk_task (id title status : string) : gmap string string :=
  <["id" := id]> (<["title" := title]> (<["status" := status]> ∅)).

Definition sample_tasks : list (gmap string string) :=
  [ mk_task "1" "Regular task" "needsAction";
    mk_task "2" "Filed taxes" "completed";
    mk_task "3" "Urgent meeting" "needsAction";
    mk_task "4" "Another task on 2024/01/02" "needsAction" ].

(** * Properties *)

(** ** The module's tests

    The assertions of [tests/components/google_tasks/test_todo.py] on the
    pure functions, evaluated on the embedding. *)

Example test_convert_api_item :
  _convert_api_item
    (<["id" := "123"]> (<["title" := "Buy groceries"]>
       (<["status" := "needsAction"]> (<["due" := "2024-11-28T10:00:00Z"]>
          (<["notes" := "Milk, eggs, bread"]> ∅)))))
  = Ok (mkTodoItem "Buy groceries" (Some "123") (Some NEEDS_ACTION)
          (parse_datetime "2024-11-28T10:00:00Z") (Some "Milk, eggs, bread")).
Proof. by vm_compute. Qed.

Example test_extract_date_time :
  _extract_date_time "Meeting on 27 Nov 2024 at 18:00"
  = Ok (Some (mkdt 2024 11 27 18 0 0 0 None), Some "18:00").
Proof. by vm_compute. Qed.

Example test_is_priority_task :
  _is_priority_task "Urgent meeting" (Some "Important discussion") = true
  ∧ _is_priority_task "Regular task" (Some "Nothing special") = false.
Proof. by vm_compute. Qed.

Example test_format_due_datetime :
  _format_due_datetime (mkdt 2024 11 27 18 0 0 0 None)
  = "2024-11-27T18:00:00Z".
Proof. by vm_compute. Qed.

Example test_order_tasks :
  match
    _order_tasks
      [ <["id" := "1"]> (<["title" := "Regular task"]>
          (<["position" := "1"]> ∅));
        <["id" := "2"]> (<["title" := "Urgent meeting"]>
          (<["position" := "2"]> ∅));
        <["id" := "3"]> (<["title" := "Another task"]>
          (<["position" := "3"]> ∅)) ]
  with
  | Ok ordered => (fun task => task !! "id") <$> ordered
  | Raise _ => []
  end = [Some "2"; Some "1"; Some "3"].
Proof. vm_compute. reflexivity. Qed.

Example test_convert_todo_item_no_due_date :
  _convert_todo_item
    (mkTodoItem "Task without due date" None (Some NEEDS_ACTION) None None)
  !! "due" = None.
Proof. by vm_compute. Qed.

Example test_convert_api_item_no_due_date :
  _convert_api_item
    (<["id" := "123"]> (<["title" := "Task without due date"]>
       (<["status" := "needsAction"]> ∅)))
  = Ok (mkTodoItem "Task without due date" (Some "123") (Some NEEDS_ACTION)
          None None).
Proof. by vm_compute. Qed.

Example test_extract_date_time_invalid_format :
  _extract_date_time "Meeting on invalid date" = Ok (None, None).
Proof. by vm_compute. Qed.

Example test_is_priority_task_case_insensitive :
  _is_priority_task "urgent meeting" (Some "important discussion") = true
  ∧ _is_priority_task "ASAP task" None = true.
Proof. by vm_compute. Qed.

Example test_convert_todo_item_completed_status :
  _convert_todo_item
    (mkTodoItem "Completed task" None (Some COMPLETED) None None)
  !! "status" = Some "completed".
Proof. by vm_compute. Qed.

(** ** Strings *)

Lemma append_cons (c : ascii) (s t : string) :
  String c s +:+ t = String c (s +:+ t).
Proof. reflexivity. Qed.

Lemma append_nil_l (t : string) : "" +:+ t = t.
Proof. reflexivity. Qed.

Lemma prefix_spec (p s : string) :
  String.prefix p s = true ↔ ∃ t, s = p +:+ t.
Proof.
  revert s. induction p as [|a p IH]; intros s.
  - destruct s; simpl; split; eauto.
  - destruct s as [|b s]; simpl.
    + split; [discriminate | intros [t Ht]; discriminate].
    + destruct (Ascii.ascii_dec a b) as [->|Hne].
      * rewrite IH. split; intros [t Ht]; exists t.
        -- rewrite append_cons. by f_equal.
        -- rewrite append_cons in Ht. by injection Ht.
      * split; [discriminate | intros [t Ht]].
        rewrite append_cons in Ht. injection Ht as Hab _. congruence.
Qed.

Lemma str_in_spec (needle hay : string) :
  str_in needle hay = true ↔ is_substring needle hay.
Proof.
  unfold is_substring. induction hay as [|c hay IH].
  - cbn [str_in]. rewrite orb_false_r, prefix_spec. split.
    + intros [t Ht]. by exists "", t.
    + intros ([|a pre] & post & Hp); [by exists post|discriminate].
  - cbn [str_in]. rewrite orb_true_iff, IH, prefix_spec. split.
    + intros [[t Ht] | (pre & post & Hp)].
      * by exists "", t.
      * exists (String c pre), post. rewrite append_cons. by f_equal.
    + intros ([|a pre] & post & Hp).
      * left. by exists post.
      * right. rewrite append_cons in Hp. injection Hp as _ Hp. eauto.
Qed.

(** ** C7: priority detection *)

(** C7.  [_is_priority_task title notes] is true exactly when the
    lower-cased text [title + " " + notes] (notes read as empty when
    absent) contains the lower-casing of one of the eight fixed phrases
    as a plain substring. *)
Theorem is_priority_task_iff_phrase (title : string) (notes : option string) :
  _is_priority_task title notes = true ↔
  ∃ phrase,
    phrase ∈ [ "ASAP"; "Urgent"; "Immediately"; "Critical"; "Important";
               "Top Priority"; "Must Do"; "High Importance" ]
    ∧ is_substring (lower phrase)
        (lower (title +:+ " " +:+ match notes with
                                  | Some n => n
                                  | None => ""
                                  end)).
Proof.
  unfold _is_priority_task. rewrite existsb_exists.
  split; intros (kw & Hin & Hsub); exists kw.
  - split; [by apply list_elem_of_In|by apply str_in_spec].
  - split; [by apply list_elem_of_In|by apply str_in_spec].
Qed.

(** ** The regular-expression engine is sound *)

Lemma consumed_app (w s : list ascii) : consumed (w ++ s) s = w.
Proof.
  unfold consumed. rewrite length_app.
  replace (length w + length s - length s)%nat with (length w) by lia.
  by rewrite take_app_length.
Qed.

Section engine.
Context {A : Type}.
Implicit Types (s w : list ascii) (caps : captures).
Implicit Types k : list ascii → captures → option A.

Lemma step_class_sound (p : ascii → bool) s (k' : list ascii → option A) a :
  step_class p s k' = Some a →
  ∃ c s', s = c :: s' ∧ p c = true ∧ k' s' = Some a.
Proof.
  destruct s as [|c s']; simpl; [discriminate|].
  destruct (p c) eqn:Hp; [|discriminate]. eauto.
Qed.

Lemma rep_loop_sound ic r names step :
  (∀ s caps k a, step s caps k = Some a → run_ok ic r names s caps k a) →
  ∀ n lo s caps k a,
    rep_loop step k n lo s caps = Some a →
    ∃ ws s' new,
      s = concat ws ++ s' ∧ (lo ≤ length ws ≤ n)%nat
      ∧ Forall (lang ic r) ws
      ∧ Forall (fun p => p.1 ∈ names) new
      ∧ k s' (new ++ caps) = Some a.
Proof.
  intros Hstep n. induction n as [|n IH]; intros lo s caps k a Hrun.
  - destruct lo; simpl in Hrun; [|discriminate].
    exists [], s, []. repeat split; auto.
  - simpl in Hrun.
    destruct (step s caps (rep_loop step k n (Nat.pred lo))) as [a'|] eqn:Hs.
    + injection Hrun as ->.
      apply Hstep in Hs as (w & s1 & new1 & -> & Hw & Hn1 & Hk1).
      apply IH in Hk1 as (ws & s2 & new2 & -> & Hlen & Hws & Hn2 & Hk2).
      exists (w :: ws), s2, (new2 ++ new1).
      rewrite <- (assoc_L (++)), Hk2. simpl. rewrite <- (assoc_L (++)).
      repeat split; auto; try lia. by apply Forall_app.
    + destruct lo; [|discriminate].
      exists [], s, []. repeat split; simpl; auto; lia.
Qed.

Lemma rmatch_sound ic r s caps k a :
  rmatch ic r s caps k = Some a → run_ok ic r (group_names r) s caps k a.
Proof.
  revert s caps k a.
  induction r as [|c| | |lo hi|cs|r1 IH1 r2 IH2|r1 IH1 r2 IH2|lo hi r IH
                 |name r IH]; intros s caps k a Hrun; simpl in Hrun.
  - exists [], s, []. by repeat split.
  - apply step_class_sound in Hrun as (d & s' & -> & Hp & Hk).
    exists [d], s', []. repeat split; simpl; eauto.
  - apply step_class_sound in Hrun as (d & s' & -> & Hp & Hk).
    exists [d], s', []. repeat split; simpl; eauto.
  - apply step_class_sound in Hrun as (d & s' & -> & Hp & Hk).
    exists [d], s', []. repeat split; simpl; eauto.
  - apply step_class_sound in Hrun as (d & s' & -> & Hp & Hk).
    exists [d], s', []. repeat split; simpl; eauto.
  - apply step_class_sound in Hrun as (d & s' & -> & Hp & Hk).
    exists [d], s', []. repeat split; simpl; eauto.
  - apply IH1 in Hrun as (w1 & s1 & new1 & -> & Hw1 & Hn1 & Hk1).
    apply IH2 in Hk1 as (w2 & s2 & new2 & -> & Hw2 & Hn2 & Hk2).
    exists (w1 ++ w2), s2, (new2 ++ new1).
    rewrite <- !(assoc_L (++)). repeat split; simpl; eauto.
    apply Forall_app. split; eapply Forall_impl; eauto;
      intros p Hp; simpl; set_solver.
  - destruct (rmatch ic r1 s caps k) as [a'|] eqn:H1.
    + injection Hrun as ->.
      apply IH1 in H1 as (w & s' & new & -> & Hw & Hn & Hk).
      exists w, s', new. repeat split; simpl; auto.
      eapply Forall_impl; eauto. intros p Hp; simpl; set_solver.
    + apply IH2 in Hrun as (w & s' & new & -> & Hw & Hn & Hk).
      exists w, s', new. repeat split; simpl; auto.
      eapply Forall_impl; eauto. intros p Hp; simpl; set_solver.
  - eapply rep_loop_sound in Hrun as (ws & s' & new & -> & Hlen & Hws & Hn & Hk);
      [|exact IH].
    exists (concat ws), s', new. repeat split; simpl; auto.
    exists ws. repeat split; auto; try lia.
    intros n ->. simpl in Hlen. lia.
  - apply IH in Hrun as (w & s' & new & -> & Hw & Hn & Hk).
    rewrite consumed_app in Hk.
    exists w, s', ((name, w) :: new). repeat split; simpl; auto.
    constructor; [set_solver|].
    eapply Forall_impl; eauto. intros p Hp; simpl; set_solver.
Qed.

End engine.

Lemma search_from_sound (r : regex) (s t : list ascii) :
  search_from r s = Some t →
  ∃ pre post, s = pre ++ t ++ post ∧ lang false r t.
Proof.
  induction s as [|c s IH]; simpl.
  - destruct (rmatch false r [] [] _) as [rest|] eqn:Hm; [|discriminate].
    intros [= <-].
    apply rmatch_sound in Hm as (w & s' & new & Hs & Hw & _ & [= <-]).
    rewrite Hs, consumed_app. exists [], s'. by rewrite <- Hs.
  - destruct (rmatch false r (c :: s) [] _) as [rest|] eqn:Hm.
    + intros [= <-].
      apply rmatch_sound in Hm as (w & s' & new & Hs & Hw & _ & [= <-]).
      rewrite Hs, consumed_app. exists [], s'. by rewrite <- Hs.
    + intros (pre & post & -> & Ht)%IH. by exists (c :: pre), post.
Qed.

Lemma list_ascii_of_string_app (a b : string) :
  String.list_ascii_of_string (a +:+ b)
  = String.list_ascii_of_string a ++ String.list_ascii_of_string b.
Proof. induction a as [|c a IH]; simpl; [done|]. by rewrite IH. Qed.

Lemma string_of_list_ascii_app (a b : list ascii) :
  String.string_of_list_ascii (a ++ b)
  = String.string_of_list_ascii a +:+ String.string_of_list_ascii b.
Proof. induction a as [|c a IH]; simpl; [done|]. by rewrite IH. Qed.

(** A match of [re.search] is a substring of the text and a word of the
    pattern. *)
Lemma re_search_sound (r : regex) (text t : string) :
  re_search r text = Some t →
  is_substring t text ∧ lang false r (String.list_ascii_of_string t).
Proof.
  unfold re_search.
  destruct (search_from r _) as [w|] eqn:Hs; [|discriminate].
  intros [= <-]. apply search_from_sound in Hs as (pre & post & Htext & Hw).
  rewrite String.list_ascii_of_string_of_list_ascii. split; [|done].
  exists (String.string_of_list_ascii pre), (String.string_of_list_ascii post).
  rewrite <- !string_of_list_ascii_app, <- Htext.
  by rewrite String.string_of_list_ascii_of_string.
Qed.

(** ** What [strptime] raises and returns *)

Lemma bind_ok {A B : Type} (m : result A) (f : A → result B) (b : B) :
  m ≫= f = Ok b ↔ ∃ a, m = Ok a ∧ f a = Ok b.
Proof.
  destruct m as [a|e]; simpl; split.
  - eauto.
  - by intros (? & [= <-] & ?).
  - discriminate.
  - by intros (? & [=] & ?).
Qed.

Lemma bind_raise {A B : Type} (m : result A) (f : A → result B) (e : exn) :
  m ≫= f = Raise e ↔ m = Raise e ∨ ∃ a, m = Ok a ∧ f a = Raise e.
Proof.
  destruct m as [a|e']; simpl; split.
  - intros Hf. right. exists a. split; [reflexivity|exact Hf].
  - intros [[=]|(? & [= <-] & ?)]; done.
  - intros [= ->]. by left.
  - intros [[= ->]|(? & [=] & ?)]; done.
Qed.

Lemma new_datetime_raise y mo d h mi s us tz e :
  new_datetime y mo d h mi s us tz = Raise e → e = ValueError.
Proof. unfold new_datetime. destruct (valid_fields _ _ _ _ _ _ _); congruence. Qed.

Lemma format_pattern_raise (fmt : list ascii) :
  ∀ in_ws e, format_pattern in_ws fmt = Raise e → e = ValueError.
Proof.
  induction fmt as [fmt IH] using (induction_ltof1 _ length).
  unfold ltof in IH. intros in_ws e. destruct fmt as [|c fmt]; [discriminate|].
  simpl. destruct (is_space c).
  { intros [Hr|(? & _ & [=])]%bind_raise. eapply IH; [|exact Hr]. simpl; lia. }
  destruct (Ascii.eqb c "%").
  - destruct fmt as [|x fmt]; [congruence|].
    destruct (directive x); [|congruence].
    intros [Hr|(? & _ & [=])]%bind_raise. eapply IH; [|exact Hr]. simpl; lia.
  - intros [Hr|(? & _ & [=])]%bind_raise. eapply IH; [|exact Hr]. simpl; lia.
Qed.

Lemma strptime_raise (data format : string) (e : exn) :
  strptime data format = Raise e → e = ValueError.
Proof.
  unfold strptime.
  intros [Hr|(r & _ & Hr)]%bind_raise; [by eapply format_pattern_raise|].
  destruct (re_match_ic r data) as [[[|? ?] caps]|]; try congruence.
  by eapply new_datetime_raise.
Qed.

(** A format without clock directives gives midnight. *)
Lemma strptime_midnight (data format : string) (r : regex) (d : datetime) :
  format_pattern false (String.list_ascii_of_string format) = Ok r →
  "I" ∉ group_names r → "H" ∉ group_names r → "M" ∉ group_names r →
  strptime data format = Ok d →
  hour d = 0 ∧ minute d = 0.
Proof.
  intros Hfmt HI HH HM. unfold strptime. rewrite Hfmt. simpl.
  unfold re_match_ic.
  destruct (rmatch _ _ _ _ _) as [[[|? ?] caps]|] eqn:Hm; try discriminate.
  apply rmatch_sound in Hm as (w & s' & new & _ & _ & Hnew & [= _ <-]).
  rewrite app_nil_r.
  assert (∀ name, name ∉ group_names r → group name new = None) as Hnone.
  { intros name Hname. unfold group.
    destruct (List.find _ new) as [p|] eqn:Hf; [|done].
    apply find_some in Hf as [Hin Heq%String.eqb_eq].
    rewrite Forall_forall in Hnew. apply list_elem_of_In, Hnew in Hin.
    by rewrite Heq in Hin. }
  rewrite (Hnone "I" HI), (Hnone "H" HH), (Hnone "M" HM). simpl.
  unfold new_datetime. destruct (valid_fields _ _ _ _ _ _ _); [|discriminate].
  by intros [= <-].
Qed.

(** ** C8: the extractor never raises *)

Lemma date_loop_total (patterns : list (regex * string)) (text : string) :
  ∃ date, date_loop patterns text = Ok date.
Proof.
  induction patterns as [|[pattern format] rest IH]; simpl; [by eexists|].
  destruct (re_search pattern text) as [m|]; [|done].
  destruct (strptime m format) as [d|e] eqn:Hp; simpl; [by eexists|].
  by rewrite (strptime_raise _ _ _ Hp).
Qed.

Lemma date_loop_none (patterns : list (regex * string)) (text : string) :
  (∀ pattern format m,
     (pattern, format) ∈ patterns → re_search pattern text = Some m →
     is_ok (strptime m format) = false) →
  date_loop patterns text = Ok None.
Proof.
  induction patterns as [|[pattern format] rest IH]; intros Hfail; [done|].
  simpl. assert (date_loop rest text = Ok None) as Hrest.
  { apply IH. intros p f m Hin. apply Hfail. by right. }
  destruct (re_search pattern text) as [m|] eqn:Hs; [|done].
  specialize (Hfail pattern format m (list_elem_of_here _ _) Hs).
  destruct (strptime m format) as [d|e] eqn:Hp; [discriminate|].
  by rewrite (strptime_raise _ _ _ Hp).
Qed.

Lemma date_loop_some (patterns : list (regex * string)) (text : string)
    (d : datetime) :
  date_loop patterns text = Ok (Some d) →
  ∃ pattern format m,
    (pattern, format) ∈ patterns ∧ re_search pattern text = Some m
    ∧ strptime m format = Ok d.
Proof.
  induction patterns as [|[pattern format] rest IH]; [discriminate|].
  simpl. intros Hloop.
  assert (date_loop rest text = Ok (Some d) →
          ∃ p f m, (p, f) ∈ (pattern, format) :: rest
                   ∧ re_search p text = Some m ∧ strptime m f = Ok d) as Hrest.
  { intros (p & f & m & Hin & Hs & Hp)%IH. exists p, f, m.
    split; [by right|done]. }
  destruct (re_search pattern text) as [m|] eqn:Hs; [|auto].
  destruct (strptime m format) as [d'|e] eqn:Hp; simpl in Hloop.
  - injection Hloop as ->. exists pattern, format, m. split; [by left|done].
  - rewrite (strptime_raise _ _ _ Hp) in Hloop. auto.
Qed.

(** None of the date formats has a clock directive. *)
Lemma date_patterns_midnight (pattern : regex) (format data : string)
    (d : datetime) :
  (pattern, format) ∈ DATE_PATTERNS → strptime data format = Ok d →
  hour d = 0 ∧ minute d = 0.
Proof.
  unfold DATE_PATTERNS. rewrite !elem_of_cons, elem_of_nil.
  intros Hin Hp.
  assert (∃ r, format_pattern false (String.list_ascii_of_string format) = Ok r
               ∧ bool_decide ("I" ∉ group_names r) = true
               ∧ bool_decide ("H" ∉ group_names r) = true
               ∧ bool_decide ("M" ∉ group_names r) = true)
    as (r & Hr & HI & HH & HM).
  { destruct Hin as [Hin|[Hin|[Hin|[Hin|[Hin|[Hin|[Hin|[Hin|[]]]]]]]]];
      injection Hin as _ ->; eexists; (split; [reflexivity|]);
      by vm_compute. }
  apply bool_decide_eq_true in HI, HH, HM.
  by eapply strptime_midnight.
Qed.

Lemma parse_time_obj_raise (t : string) (e : exn) :
  parse_time_obj t = Raise e → e = ValueError.
Proof.
  unfold parse_time_obj. destruct (_ || _); apply strptime_raise.
Qed.

Lemma extract_date_time_total (text : string) :
  ∃ date, _extract_date_time text = Ok (date, re_search TIME_PATTERN text).
Proof.
  unfold _extract_date_time.
  destruct (date_loop_total DATE_PATTERNS text) as [date ->]. simpl.
  destruct date as [d|]; [|by eexists].
  destruct (re_search TIME_PATTERN text) as [t|]; [|by eexists].
  destruct (String.eqb t ""); [by eexists|].
  destruct (parse_time_obj t) as [time_obj|e] eqn:Hp; simpl.
  - unfold replace_hour_minute.
    destruct (new_datetime _ _ _ _ _ _ _ _) as [d'|e] eqn:Hn; simpl;
      [by eexists|].
    rewrite (new_datetime_raise _ _ _ _ _ _ _ _ _ Hn). by eexists.
  - rewrite (parse_time_obj_raise _ _ Hp). by eexists.
Qed.

(** C8.  [_extract_date_time] returns on every text, and the raw time it
    reports is the time match.  When every date candidate that matches
    fails to parse the date is [None]; when the loop found a date and the
    time match does not parse, the date found is returned as it is, at
    midnight, together with the raw time. *)
Theorem extract_date_time_never_raises (text : string) :
  ∃ date time,
    _extract_date_time text = Ok (date, time)
    ∧ time = re_search TIME_PATTERN text
    ∧ ((∀ pattern format m,
          (pattern, format) ∈ DATE_PATTERNS →
          re_search pattern text = Some m →
          is_ok (strptime m format) = false) →
       date = None)
    ∧ (∀ d t,
          date_loop DATE_PATTERNS text = Ok (Some d) → time = Some t →
          is_ok (parse_time_obj t) = false →
          date = Some d ∧ hour d = 0 ∧ minute d = 0).
Proof.
  destruct (extract_date_time_total text) as [date Hex].
  exists date, (re_search TIME_PATTERN text).
  split; [done|]. split; [done|]. split.
  - intros Hfail%date_loop_none. unfold _extract_date_time in Hex.
    rewrite Hfail in Hex. simpl in Hex. by injection Hex.
  - intros d t Hloop Ht Hbad. unfold _extract_date_time in Hex.
    rewrite Hloop, Ht in Hex. simpl in Hex.
    apply date_loop_some in Hloop as (p & f & m & Hin & _ & Hp).
    destruct (date_patterns_midnight _ _ _ _ Hin Hp) as [Hh Hm].
    split; [|done].
    destruct (String.eqb t ""); [by injection Hex|].
    destruct (parse_time_obj t) as [?|e] eqn:Hpt; [discriminate|].
    rewrite (parse_time_obj_raise _ _ Hpt) in Hex. simpl in Hex.
    by injection Hex.
Qed.

(** The two silent cases of C8 on concrete texts. *)
Example extract_unparseable_date :
  _extract_date_time "Call on Nov 27, 2024 at 25:00" = Ok (None, Some "25:00").
Proof. by vm_compute. Qed.

Example extract_unparseable_time :
  _extract_date_time "Call on 27 Nov 2024 at 25:00"
  = Ok (Some (mkdt 2024 11 27 0 0 0 0 None), Some "25:00")
  ∧ is_ok (parse_time_obj "25:00") = false.
Proof. by vm_compute. Qed.

(** ** C9: conversion of a remote record *)

Section codec_facts.
Context `{dt_util}.

Lemma convert_api_item_due (item : gmap string string) :
  ∃ due,
    (match item !! "due" with
     | Some due_str => Ok (parse_datetime due_str)
     | None =>
         r ← _extract_date_time
               (default "" (item !! "title") +:+ " "
                +:+ default "" (item !! "notes"));
         Ok (fst r)
     end) = Ok due.
Proof.
  destruct (item !! "due") as [s|]; [by eexists|].
  destruct (extract_date_time_total
              (default "" (item !! "title") +:+ " "
               +:+ default "" (item !! "notes"))) as [date ->].
  by eexists.
Qed.

(** C9.  [_convert_api_item] raises exactly when the record has no
    [title] or no [id], and what it raises is then the [KeyError] of the
    missing key; with both present it returns an item whose summary and
    uid are the record's own values, whatever the other keys. *)
Theorem convert_api_item_raises_iff (item : gmap string string) :
  ((∃ e, _convert_api_item item = Raise e)
   ↔ item !! "title" = None ∨ item !! "id" = None)
  ∧ (∀ e, _convert_api_item item = Raise e →
          (e = KeyError "title" ∧ item !! "title" = None)
          ∨ (e = KeyError "id" ∧ item !! "id" = None))
  ∧ (∀ title id,
       item !! "title" = Some title → item !! "id" = Some id →
       ∃ todo, _convert_api_item item = Ok todo
               ∧ summary todo = title ∧ uid todo = Some id
               ∧ description todo = item !! "notes").
Proof.
  unfold _convert_api_item.
  destruct (convert_api_item_due item) as [due ->]. simpl.
  unfold getitem.
  destruct (item !! "title") as [title|]; simpl;
    [destruct (item !! "id") as [id|]; simpl|].
  - split; [split; [intros [e [=]]|intros [[=]|[=]]]|].
    split; [intros e [=]|]. intros ? ? [= <-] [= <-]. by eexists.
  - split; [split; [by right|by eexists]|].
    split; [intros e [= <-]; by right|]. intros ? ? _ [=].
  - split; [split; [by left|by eexists]|].
    split; [intros e [= <-]; by left|]. intros ? ? [=].
Qed.

End codec_facts.

(** ** C3: where the [due] of a record comes from *)

Section due_facts.
Context `{dt_util}.

Lemma extract_date_time_extracted (task : gmap string string) :
  _extract_date_time
    (default "" (task !! "title") +:+ " " +:+ default "" (task !! "notes"))
  = Ok (extracted_date task,
        re_search TIME_PATTERN
          (default "" (task !! "title") +:+ " "
           +:+ default "" (task !! "notes"))).
Proof.
  unfold extracted_date.
  destruct (extract_date_time_total
              (default "" (task !! "title") +:+ " "
               +:+ default "" (task !! "notes"))) as [date ->].
  done.
Qed.

(** C3, as the code has it.  The extractor is a fallback for an absent
    [due] only.  [_convert_api_item], on a record with a title and an id,
    keeps the parse of a present [due], [None] included, and reads the
    text only when the key is absent.  In [get_due_date] a non-empty [due] that parses is the
    effective due, and an absent or empty [due] gives the extracted date,
    or [datetime.max] when there is none. *)
Theorem due_fallback_only_when_absent (task : gmap string string) :
  (∀ title id,
     task !! "title" = Some title → task !! "id" = Some id →
     ∃ todo,
       _convert_api_item task = Ok todo
       ∧ due todo = match task !! "due" with
                    | Some due_str => parse_datetime due_str
                    | None => extracted_date task
                    end)
  ∧ (∀ due_str d,
       task !! "due" = Some due_str → due_str ≠ "" →
       parse_datetime due_str = Some d →
       get_due_date task = Ok (Some d))
  ∧ (task !! "due" = None ∨ task !! "due" = Some "" →
     get_due_date task
     = Ok (Some (default datetime_max (extracted_date task)))).
Proof.
  unfold _convert_api_item, get_due_date, getitem.
  rewrite !extract_date_time_extracted.
  split; [|split].
  - intros title id -> ->. destruct (task !! "due"); by eexists.
  - intros due_str d -> Hne <-. destruct due_str; [done|]. done.
  - intros [-> | ->]; done.
Qed.

End due_facts.

(** C3 as stated fails: an unparseable [due] is not replaced by the date
    in the title.  [task_unparseable_due] has such a [due] and a title
    with an extractable date; its item has no due, and so has its sort
    key. *)
Lemma unparseable_due_is_kept :
  parse_datetime "tomorrow" = None
  ∧ extracted_date task_unparseable_due
    = Some (mkdt 2024 11 27 0 0 0 0 None)
  ∧ _convert_api_item task_unparseable_due
    = Ok (mkTodoItem "Report due 27 Nov 2024" (Some "1") (Some NEEDS_ACTION)
            None None)
  ∧ get_due_date task_unparseable_due = Ok None.
Proof. by vm_compute. Qed.

(** ** C4: the [due] string sent to the remote store *)

Section to_remote_facts.
Context `{dt_util}.

Lemma convert_todo_item_due (item : TodoItem) (d : datetime) :
  due item = Some d →
  _convert_todo_item item !! "due"
  = Some ((isoformat_local (as_utc d) +:+ "+00:00") +:+ "Z").
Proof.
  intros Hd. unfold _convert_todo_item. rewrite Hd.
  assert (_format_due_datetime (as_utc d)
          = (isoformat_local (as_utc d) +:+ "+00:00") +:+ "Z") as ->.
  { unfold _format_due_datetime, isoformat. by rewrite as_utc_tzinfo. }
  destruct (description item) as [[|c notes]|]; by simplify_map_eq.
Qed.

End to_remote_facts.

(** C4.  For a due of 27 Nov 2024 18:00 UTC the emitted string ends in
    the numeric offset followed by the letter: both are present. *)
Theorem convert_todo_item_due_double_suffix :
  _convert_todo_item
    (mkTodoItem "Pay rent" None (Some NEEDS_ACTION)
       (Some (mkdt 2024 11 27 18 0 0 0 (Some 0))) None) !! "due"
  = Some "2024-11-27T18:00:00+00:00Z".
Proof. by vm_compute. Qed.

(** ** C2: the two readings of a slash-separated date *)

Lemma date_patterns_slash :
  take 3 DATE_PATTERNS
  = [ (NNNN_NN_NN, "%Y/%m/%d"); (NN_NN_NNNN, "%d/%m/%Y");
      (NN_NN_NNNN, "%m/%d/%Y") ].
Proof. reflexivity. Qed.

Lemma date_loop_app (ps qs : list (regex * string)) (text : string) :
  date_loop (ps ++ qs) text
  = match date_loop ps text with
    | Ok None => date_loop qs text
    | r => r
    end.
Proof.
  induction ps as [|[p f] ps IH]; simpl; [done|].
  destruct (re_search p text) as [m|]; [|done].
  destruct (strptime m f) as [d|[]]; simpl; done.
Qed.

(** C2, as the code has it.  When the year-first candidate yields no
    date, the first [NN/NN/NNNN] substring is parsed as [%d/%m/%Y] and
    that date wins if the parse succeeds; if it raises, the same
    substring is parsed as [%m/%d/%Y], and that third candidate produces
    the date when its parse succeeds. *)
Theorem slash_date_second_then_third (text m : string) :
  date_loop [(NNNN_NN_NN, "%Y/%m/%d")] text = Ok None →
  re_search NN_NN_NNNN text = Some m →
  date_loop DATE_PATTERNS text
  = match strptime m "%d/%m/%Y", strptime m "%m/%d/%Y" with
    | Ok d, _ => Ok (Some d)
    | Raise _, Ok d => Ok (Some d)
    | Raise _, Raise _ => date_loop (drop 3 DATE_PATTERNS) text
    end.
Proof.
  intros Hymd Hs.
  replace DATE_PATTERNS
    with ([(NNNN_NN_NN, "%Y/%m/%d")]
          ++ [(NN_NN_NNNN, "%d/%m/%Y"); (NN_NN_NNNN, "%m/%d/%Y")]
          ++ drop 3 DATE_PATTERNS) at 1 by reflexivity.
  rewrite date_loop_app, Hymd. cbn [date_loop app]. rewrite Hs.
  destruct (strptime m "%d/%m/%Y") as [d|e] eqn:H2; simpl; [done|].
  rewrite (strptime_raise _ _ _ H2).
  destruct (strptime m "%m/%d/%Y") as [d|e'] eqn:H3; simpl; [done|].
  by rewrite (strptime_raise _ _ _ H3).
Qed.

Lemma slash_date_second_then_third_witness :
  date_loop DATE_PATTERNS "Party on 12/25/2024"
  = match strptime "12/25/2024" "%d/%m/%Y",
          strptime "12/25/2024" "%m/%d/%Y" with
    | Ok d, _ => Ok (Some d)
    | Raise _, Ok d => Ok (Some d)
    | Raise _, Raise _ =>
        date_loop (drop 3 DATE_PATTERNS) "Party on 12/25/2024"
    end.
Proof.
  apply (slash_date_second_then_third "Party on 12/25/2024" "12/25/2024");
    vm_compute; reflexivity.
Defined.

(** C2 as stated fails: on [12/25/2024] the [%d/%m/%Y] parse raises and
    the date comes from the [%m/%d/%Y] candidate. *)
Lemma month_first_candidate_is_reached :
  re_search NN_NN_NNNN "Party on 12/25/2024" = Some "12/25/2024"
  ∧ strptime "12/25/2024" "%d/%m/%Y" = Raise ValueError
  ∧ strptime "12/25/2024" "%m/%d/%Y" = Ok (mkdt 2024 12 25 0 0 0 0 None)
  ∧ _extract_date_time "Party on 12/25/2024"
    = Ok (Some (mkdt 2024 12 25 0 0 0 0 None), None).
Proof. by vm_compute. Qed.

(** ** C5: the shape of a time match *)

Lemma concat_singletons (p : ascii → bool) (ws : list (list ascii)) :
  Forall (fun w => ∃ d, w = [d] ∧ p d = true) ws →
  length (concat ws) = length ws ∧ Forall (fun c => p c = true) (concat ws).
Proof.
  induction 1 as [|w ws (d & -> & Hd) _ [IHl IHf]]; simpl; [done|].
  split; [by rewrite IHl|by constructor].
Qed.

Lemma lang_digits (lo hi : nat) (w : list ascii) :
  lang false (digits lo hi) w →
  Forall (fun c => is_digit c = true) w ∧ (lo ≤ length w ≤ hi)%nat.
Proof.
  simpl. intros (ws & -> & Hlo & Hhi & Hws).
  apply concat_singletons in Hws as [Hlen Hall].
  specialize (Hhi hi eq_refl). split; [done|lia].
Qed.

Lemma lang_optional (r : regex) (w : list ascii) :
  lang false (Rep 0 (Some 1%nat) r) w → w = [] ∨ lang false r w.
Proof.
  simpl. intros (ws & -> & _ & Hhi & Hws). specialize (Hhi 1%nat eq_refl).
  destruct Hws as [|w ws Hw [|]]; simpl in *; [by left| |lia].
  right. by rewrite app_nil_r.
Qed.

Lemma lang_chr (c : ascii) (w : list ascii) :
  lang false (Chr c) w → w = [c].
Proof. simpl. by intros (d & -> & ->%Ascii.eqb_eq). Qed.

Lemma lang_cat_all_cons (r : regex) (rs : list regex) (w : list ascii) :
  lang false (cat_all (r :: rs)) w →
  ∃ w1 w2, w = w1 ++ w2 ∧ lang false r w1 ∧ lang false (cat_all rs) w2.
Proof. intros Hl. exact Hl. Qed.

Lemma lang_cat_all_nil (w : list ascii) : lang false (cat_all []) w → w = [].
Proof. intros Hl. exact Hl. Qed.

Lemma lang_one_of (cs : list ascii) (w : list ascii) :
  lang false (OneOf cs) w → ∃ c, w = [c] ∧ c ∈ cs.
Proof.
  simpl. intros (d & -> & (c & Hin & ->%Ascii.eqb_eq)%existsb_exists).
  exists c. by rewrite list_elem_of_In.
Qed.

Lemma lang_space (w : list ascii) :
  lang false Space w → ∃ c, w = [c] ∧ is_space c = true.
Proof. intros Hl. exact Hl. Qed.

Lemma time_pattern_shape (t : string) :
  lang false TIME_PATTERN (String.list_ascii_of_string t) → time_shape t.
Proof.
  unfold TIME_PATTERN, time_shape. generalize (String.list_ascii_of_string t).
  intros w Hl. change (lang false (Grp ?n ?r) w) with (lang false r w) in Hl.
  apply lang_cat_all_cons in Hl as (hh & w1 & -> & [Hhh Hlh]%lang_digits & Hl).
  apply lang_cat_all_cons in Hl as (colon & w2 & -> & ->%lang_chr & Hl).
  apply lang_cat_all_cons in Hl as (mm & w3 & -> & [Hmm Hlm]%lang_digits & Hl).
  apply lang_cat_all_cons in Hl
    as (suffix & w4 & -> & Hsuf%lang_optional & ->%lang_cat_all_nil).
  exists hh, mm, suffix. rewrite app_nil_r.
  repeat split; try done; try lia.
  destruct Hsuf as [->|Hl]; [by left|right].
  apply lang_cat_all_cons in Hl as (blank & w5 & -> & Hb%lang_optional & Hl).
  apply lang_cat_all_cons in Hl as (half & w6 & -> & (a & -> & Ha)%lang_one_of & Hl).
  apply lang_cat_all_cons in Hl
    as (em & w7 & -> & ->%lang_chr & ->%lang_cat_all_nil).
  exists blank, a. split; [done|]. split.
  - apply elem_of_cons in Ha as [->|Ha]; [by left|].
    apply elem_of_cons in Ha as [->|Ha]; [by right|].
    by apply elem_of_nil in Ha.
  - destruct Hb as [->|(c & -> & Hc)%lang_space]; [by left|right; eauto].
Qed.

(** What the search reports is found at the leftmost position where the
    pattern matches, and the run of the pattern there leaves the text
    behind the match. *)
Lemma search_from_none (r : regex) (s p q : list ascii) :
  search_from r s = None → s = p ++ q →
  rmatch false r q [] (fun rest _ => Some rest) = None.
Proof.
  revert p. induction s as [|c s IH]; intros p; simpl.
  - destruct (rmatch false r [] [] _) eqn:Hm; [discriminate|].
    intros _ Hs. symmetry in Hs. apply app_eq_nil in Hs as [_ ->]. done.
  - destruct (rmatch false r (c :: s) [] _) eqn:Hm; [discriminate|].
    intros Hs Hpq. destruct p as [|x p]; simpl in Hpq.
    + by rewrite <- Hpq.
    + injection Hpq as _ Hpq. by eapply IH.
Qed.

Lemma search_from_leftmost (r : regex) (s t : list ascii) :
  search_from r s = Some t →
  ∃ pre post,
    s = pre ++ t ++ post
    ∧ rmatch false r (t ++ post) [] (fun rest _ => Some rest) = Some post
    ∧ ∀ p q, s = p ++ q → (length p < length pre)%nat →
             rmatch false r q [] (fun rest _ => Some rest) = None.
Proof.
  induction s as [|c s IH]; simpl.
  - destruct (rmatch false r [] [] _) as [rest|] eqn:Hm; [|discriminate].
    intros [= <-].
    pose proof Hm as (w & s' & new & Hs & Hw & _ & [= <-])%rmatch_sound.
    rewrite Hs, consumed_app. exists [], s'. rewrite <- Hs.
    repeat split; [done|]. intros p q _ Hp. simpl in Hp. lia.
  - destruct (rmatch false r (c :: s) [] _) as [rest|] eqn:Hm.
    + intros [= <-].
      pose proof Hm as (w & s' & new & Hs & Hw & _ & [= <-])%rmatch_sound.
      rewrite Hs, consumed_app. exists [], s'. rewrite <- Hs.
      repeat split; [done|]. intros p q _ Hp. simpl in Hp. lia.
    + intros (pre & post & -> & Hrun & Hleft)%IH.
      exists (c :: pre), post. repeat split; [done|].
      intros p q Hpq Hp. destruct p as [|x p]; simpl in Hpq, Hp.
      * by rewrite <- Hpq.
      * injection Hpq as _ Hpq. apply (Hleft p q Hpq). lia.
Qed.

Ltac run_steps :=
  repeat (simpl;
          match goal with
          | |- context [step_class _ ?l _] =>
              is_var l; destruct l
          | |- context [if ?b then _ else _] => destruct b eqn:?
          end);
  simpl; eexists; (split; [reflexivity|simpl; lia]).

Lemma time_pattern_complete (hh mm suffix post : list ascii) :
  Forall (fun c => is_digit c = true) hh → (1 ≤ length hh ≤ 2)%nat →
  Forall (fun c => is_digit c = true) mm → length mm = 2%nat →
  (suffix = []
   ∨ ∃ blank half,
       suffix = blank ++ [half; "M"%char]
       ∧ (half = "A"%char ∨ half = "P"%char)
       ∧ (blank = [] ∨ ∃ c, blank = [c] ∧ is_space c = true)) →
  ∃ rest,
    rmatch false TIME_PATTERN (hh ++ ":"%char :: mm ++ suffix ++ post) []
      (fun rest _ => Some rest) = Some rest
    ∧ (length rest ≤ length post)%nat.
Proof.
  intros Hhh Hlh Hmm Hlm Hsuf.
  destruct mm as [|c [|d [|? ?]]]; simpl in Hlm; try lia.
  apply Forall_cons in Hmm as [Hc Hmm]. apply Forall_cons in Hmm as [Hd _].
  unfold TIME_PATTERN, cat_all, digits.
  destruct hh as [|a [|b [|? ?]]]; simpl in Hlh; try lia.
  - apply Forall_cons in Hhh as [Ha _].
    destruct Hsuf as [->|(blank & half & -> & Hhalf & Hblank)].
    + simpl. rewrite Ha, Hc, Hd. run_steps.
    + destruct Hblank as [->|(sp & -> & Hsp)]; destruct Hhalf as [->| ->];
        simpl; rewrite Ha, Hc, Hd, ?Hsp; simpl;
        eexists; (split; [reflexivity|lia]).
  - apply Forall_cons in Hhh as [Ha Hhh]. apply Forall_cons in Hhh as [Hb _].
    destruct Hsuf as [->|(blank & half & -> & Hhalf & Hblank)].
    + simpl. rewrite Ha, Hb, Hc, Hd. run_steps.
    + destruct Hblank as [->|(sp & -> & Hsp)]; destruct Hhalf as [->| ->];
        simpl; rewrite Ha, Hb, Hc, Hd, ?Hsp; simpl;
        eexists; (split; [reflexivity|lia]).
Qed.

Lemma string_length_list (s : string) :
  String.length s = length (String.list_ascii_of_string s).
Proof. induction s as [|c s IH]; simpl; [done|]. by rewrite IH. Qed.

Lemma time_search_leftmost (text pre t post : string) :
  text = pre +:+ t +:+ post → time_shape t →
  ∃ pre' t' post',
    re_search TIME_PATTERN text = Some t'
    ∧ text = pre' +:+ t' +:+ post'
    ∧ (String.length pre' ≤ String.length pre)%nat
    ∧ (String.length pre' = String.length pre →
       (String.length t ≤ String.length t')%nat).
Proof.
  intros Htext (hh & mm & suffix & Ht & Hhh & Hlh & Hmm & Hlm & Hsuf).
  destruct (time_pattern_complete hh mm suffix
              (String.list_ascii_of_string post) Hhh Hlh Hmm Hlm Hsuf)
    as (rest & Hrun & Hrest).
  assert (String.list_ascii_of_string text
          = String.list_ascii_of_string pre
            ++ String.list_ascii_of_string t
            ++ String.list_ascii_of_string post) as Hs.
  { by rewrite Htext, !list_ascii_of_string_app. }
  assert ((hh ++ ":"%char :: mm ++ suffix ++ String.list_ascii_of_string post)
          = String.list_ascii_of_string t ++ String.list_ascii_of_string post)
    as Hin.
  { rewrite Ht, <- (assoc_L (++)). simpl. by rewrite <- (assoc_L (++)). }
  rewrite Hin in Hrun. clear Hin.
  unfold re_search.
  destruct (search_from TIME_PATTERN (String.list_ascii_of_string text))
    as [w|] eqn:Hsearch.
  - apply search_from_leftmost in Hsearch as (p1 & q1 & Hs1 & Hrun1 & Hleft).
    exists (String.string_of_list_ascii p1), (String.string_of_list_ascii w),
           (String.string_of_list_ascii q1).
    assert (length p1 ≤ length (String.list_ascii_of_string pre))%nat as Hle.
    { destruct (decide (length (String.list_ascii_of_string pre) < length p1)%nat)
        as [Hlt|]; [|lia].
      rewrite (Hleft _ _ Hs Hlt) in Hrun. discriminate. }
    rewrite !string_length_list, !String.list_ascii_of_string_of_list_ascii.
    split; [done|]. split; [|split; [done|]].
    + rewrite <- !string_of_list_ascii_app, <- Hs1.
      by rewrite String.string_of_list_ascii_of_string.
    + intros Heq. rewrite Hs in Hs1.
      apply app_inj_1 in Hs1 as [_ Hs1]; [|done].
      rewrite Hs1, Hrun1 in Hrun. injection Hrun as <-.
      apply (f_equal length) in Hs1. rewrite !length_app in Hs1. lia.
  - rewrite (search_from_none _ _ _ _ Hsearch Hs) in Hrun. discriminate.
Qed.

(** C5, as the code has it.  The time match is [H:MM] or [HH:MM],
    optionally followed by an upper-case [AM] or [PM] after at most one
    white-space character, and every such substring is recognized: the
    time reported is the leftmost substring of that shape, at its full
    length, so a two-digit hour is read with both digits and an
    upper-case suffix belongs to the match.  A lower-case suffix is no
    part of it: [6:30 pm] is matched as [6:30] and read on the 24-hour
    clock, while [6:30 PM] gives 18:30. *)
Theorem time_match_is_upper_case :
  (∀ text date t,
     _extract_date_time text = Ok (date, Some t) →
     is_substring t text ∧ time_shape t)
  ∧ (∀ text pre t post,
       text = pre +:+ t +:+ post → time_shape t →
       ∃ date pre' t' post',
         _extract_date_time text = Ok (date, Some t')
         ∧ text = pre' +:+ t' +:+ post'
         ∧ (String.length pre' ≤ String.length pre)%nat
         ∧ (String.length pre' = String.length pre →
            (String.length t ≤ String.length t')%nat))
  ∧ _extract_date_time "Dinner on 27 Nov 2024 at 6:30 pm"
    = Ok (Some (mkdt 2024 11 27 6 30 0 0 None), Some "6:30")
  ∧ _extract_date_time "Dinner on 27 Nov 2024 at 6:30 PM"
    = Ok (Some (mkdt 2024 11 27 18 30 0 0 None), Some "6:30 PM").
Proof.
  split; [|split; [|by vm_compute]].
  - intros text date t Hex.
    destruct (extract_date_time_total text) as [date' Hex'].
    rewrite Hex in Hex'. injection Hex' as _ Ht. symmetry in Ht.
    apply re_search_sound in Ht as [Hsub Hlang].
    split; [done|by apply time_pattern_shape].
  - intros text pre t post Htext Ht.
    destruct (time_search_leftmost _ _ _ _ Htext Ht)
      as (pre' & t' & post' & Hsearch & Hsplit & Hleft & Hlong).
    destruct (extract_date_time_total text) as [date Hex].
    rewrite Hsearch in Hex. by exists date, pre', t', post'.
Qed.

(** C5 as stated fails: the lower-case suffix is not matched, and the
    time is not read as the afternoon one. *)
Lemma lower_case_pm_is_not_matched :
  re_search TIME_PATTERN "Dinner on 27 Nov 2024 at 6:30 pm" = Some "6:30"
  ∧ parse_time_obj "6:30" = Ok (mkdt 1900 1 1 6 30 0 0 None)
  ∧ _extract_date_time "Dinner on 27 Nov 2024 at 6:30 pm"
    = Ok (Some (mkdt 2024 11 27 6 30 0 0 None), Some "6:30")
  ∧ _extract_date_time "Dinner on 27 Nov 2024 at 6:30 pm"
    ≠ _extract_date_time "Dinner on 27 Nov 2024 at 6:30 PM".
Proof. by vm_compute. Qed.

(** ** The stable sort *)

Section sort_facts.
Context {K A : Type} (lt : K → K → result bool).
Hypothesis lt_asym : ∀ a b, lt a b = Ok true → lt b a = Ok false.
Hypothesis lt_trans :
  ∀ a b c, lt a b = Ok false → lt b c = Ok false → lt a c = Ok false.

Implicit Types (x y : K * A) (l s : list (K * A)).

Lemma insert_sorted_perm x l r : insert_sorted lt x l = Ok r → r ≡ₚ x :: l.
Proof.
  revert r. induction l as [|y l IH]; intros r; simpl.
  - by intros [= <-].
  - intros ([] & Hlt & Hr)%bind_ok.
    + apply bind_ok in Hr as (r' & Hr' & [= <-]).
      rewrite (IH _ Hr'). apply Permutation_swap.
    + by injection Hr as <-.
Qed.

Lemma sort_decorated_perm l s : sort_decorated lt l = Ok s → s ≡ₚ l.
Proof.
  revert s. induction l as [|x l IH]; intros s; simpl.
  - by intros [= <-].
  - intros (s' & Hs' & Hins)%bind_ok.
    rewrite (insert_sorted_perm _ _ _ Hins). by rewrite (IH _ Hs').
Qed.

Lemma insert_sorted_sorted x l r :
  StronglySorted (not_after lt) l → insert_sorted lt x l = Ok r →
  StronglySorted (not_after lt) r.
Proof.
  revert r. induction l as [|y l IH]; intros r Hl; simpl.
  - intros [= <-]. repeat constructor.
  - apply StronglySorted_inv in Hl as [Hl Hy].
    intros ([] & Hlt & Hr)%bind_ok.
    + apply bind_ok in Hr as (r' & Hr' & [= <-]).
      constructor; [by apply IH|].
      rewrite (insert_sorted_perm _ _ _ Hr'). constructor; [|done].
      by apply lt_asym.
    + injection Hr as <-. constructor; [by constructor|].
      constructor; [done|].
      eapply Forall_impl; [exact Hy|]. intros z Hz. by eapply lt_trans.
Qed.

Lemma sort_decorated_sorted l s :
  sort_decorated lt l = Ok s → StronglySorted (not_after lt) s.
Proof.
  revert s. induction l as [|x l IH]; intros s; simpl.
  - intros [= <-]. constructor.
  - intros (s' & Hs' & Hins)%bind_ok.
    eapply insert_sorted_sorted; [|exact Hins]. by apply IH.
Qed.

(** Sorting a sorted list changes nothing. *)
Lemma sort_decorated_fixed s :
  StronglySorted (not_after lt) s → sort_decorated lt s = Ok s.
Proof.
  induction 1 as [|x s Hs IH Hx]; simpl; [done|].
  rewrite IH. simpl. destruct Hx as [|y s Hy _]; [done|].
  simpl. unfold not_after in Hy. by rewrite Hy.
Qed.

(** An insertion that succeeds has compared the new element, directly or
    through the order of the list, with every element. *)
Lemma insert_sorted_compared x l r :
  StronglySorted (not_after lt) l → insert_sorted lt x l = Ok r →
  Forall (compared lt x) l.
Proof.
  revert r. induction l as [|y l IH]; intros r Hl; simpl; [done|].
  apply StronglySorted_inv in Hl as [Hl Hy].
  intros ([] & Hlt & Hr)%bind_ok.
  - apply bind_ok in Hr as (r' & Hr' & _).
    constructor; [by unfold compared; rewrite Hlt|by eapply IH].
  - constructor; [by unfold compared; rewrite Hlt|].
    eapply Forall_impl; [exact Hy|]. intros z Hz.
    unfold compared. by rewrite (lt_trans _ _ _ Hz Hlt).
Qed.

Lemma sort_decorated_compared l s :
  sort_decorated lt l = Ok s → ForallOrdPairs (compared lt) l.
Proof.
  revert s. induction l as [|x l IH]; intros s; simpl; [constructor|].
  intros (s' & Hs' & Hins)%bind_ok. constructor; [|by eapply IH].
  rewrite <- (sort_decorated_perm _ _ Hs').
  eapply insert_sorted_compared; [|exact Hins].
  by eapply sort_decorated_sorted.
Qed.

Lemma insert_sorted_ok x l :
  Forall (compared lt x) l → ∃ r, insert_sorted lt x l = Ok r.
Proof.
  induction 1 as [|y l Hy _ [r IH]]; simpl; [by eexists|].
  unfold compared in Hy. destruct (lt y.1 x.1) as [[]|]; [| |done]; simpl.
  - rewrite IH. by eexists.
  - by eexists.
Qed.

Lemma sort_decorated_ok l :
  ForallOrdPairs (compared lt) l → ∃ s, sort_decorated lt l = Ok s.
Proof.
  induction 1 as [|x l Hx _ [s IH]]; simpl; [by eexists|].
  rewrite IH. simpl. apply insert_sorted_ok.
  by rewrite (sort_decorated_perm _ _ IH).
Qed.

(** The sort succeeds exactly when every comparison of a later element
    against an earlier one is defined. *)
Lemma sort_decorated_ok_iff l :
  is_ok (sort_decorated lt l) = true ↔ ForallOrdPairs (compared lt) l.
Proof.
  split.
  - destruct (sort_decorated lt l) as [s|] eqn:Hs; [|done].
    intros _. by eapply sort_decorated_compared.
  - by intros [s ->]%sort_decorated_ok.
Qed.

(** Stability: the elements tied with a key keep their order. *)
Lemma insert_sorted_stable k x l r :
  insert_sorted lt x l = Ok r →
  filter (fun y => tied lt k y = true) r
  = filter (fun y => tied lt k y = true) (x :: l).
Proof.
  revert r. induction l as [|y l IH]; intros r; simpl.
  - by intros [= <-].
  - intros ([] & Hlt & Hr)%bind_ok.
    + apply bind_ok in Hr as (r' & Hr' & [= <-]).
      rewrite filter_cons, (IH _ Hr'), !filter_cons.
      destruct (decide (tied lt k y = true)) as [Hky|]; [|done].
      destruct (decide (tied lt k x = true)) as [Hkx|]; [|done].
      exfalso. unfold tied in Hky, Hkx.
      destruct (lt k y.1) as [[]|] eqn:H1; try done.
      destruct (lt y.1 k) as [[]|] eqn:H2; try done.
      destruct (lt k x.1) as [[]|] eqn:H3; try done.
      rewrite (lt_trans _ _ _ H2 H3) in Hlt. done.
    + by injection Hr as <-.
Qed.

Lemma sort_decorated_stable k l s :
  sort_decorated lt l = Ok s →
  filter (fun y => tied lt k y = true) s = filter (fun y => tied lt k y = true) l.
Proof.
  revert s. induction l as [|x l IH]; intros s; simpl.
  - by intros [= <-].
  - intros (s' & Hs' & Hins)%bind_ok.
    rewrite (insert_sorted_stable _ _ _ _ Hins), !filter_cons.
    by rewrite (IH _ Hs').
Qed.

End sort_facts.

(** ** Comparing by instants is comparing by fields

    CPython compares two naive values, and two aware values of one
    offset, field by field.  On values that passed the constructor's
    checks this is the order of their instants, which [dt_lt] and
    [dt_eqb] read. *)

Lemma days_before_year_succ (y : Z) :
  _days_before_year (y + 1)
  = _days_before_year y + 365 + (if _is_leap y then 1 else 0).
Proof.
  unfold _days_before_year, _is_leap.
  replace (y + 1 - 1) with y by lia.
  destruct (Z.eqb_spec (y mod 4) 0), (Z.eqb_spec (y mod 100) 0),
    (Z.eqb_spec (y mod 400) 0); cbn [andb orb negb].
  all: Z.to_euclidean_division_equations; lia.
Qed.

Lemma days_before_year_le (a b : Z) :
  a ≤ b → _days_before_year a ≤ _days_before_year b.
Proof.
  intros Hle. unfold _days_before_year.
  assert ((a - 1) / 4 ≤ (b - 1) / 4) by (apply Z.div_le_mono; lia).
  assert ((a - 1) / 400 ≤ (b - 1) / 400) by (apply Z.div_le_mono; lia).
  assert ((b - 1) / 100 ≤ (a - 1) / 100 + (b - a))
    by (Z.to_euclidean_division_equations; lia).
  lia.
Qed.

Lemma month_cases (m : Z) :
  1 ≤ m ≤ 12 →
  m = 1 ∨ m = 2 ∨ m = 3 ∨ m = 4 ∨ m = 5 ∨ m = 6 ∨ m = 7 ∨ m = 8 ∨ m = 9
  ∨ m = 10 ∨ m = 11 ∨ m = 12.
Proof. lia. Qed.

Ltac month_split H :=
  apply month_cases in H;
  destruct H as [->|[->|[->|[->|[->|[->|[->|[->|[->|[->|[->| ->]]]]]]]]]]].

(** Evaluates the month tables at a literal month. *)
Ltac eval_months :=
  unfold _days_before_month, _days_in_month;
  repeat match goal with
         | |- context [Z.to_nat ?e] =>
             let v := eval vm_compute in (Z.to_nat e) in
             change (Z.to_nat e) with v
         end;
  repeat match goal with
         | |- context [?a =? ?b] =>
             let v := eval vm_compute in (a =? b) in change (a =? b) with v
         | |- context [?a <? ?b] =>
             let v := eval vm_compute in (a <? b) in change (a <? b) with v
         end;
  cbn [take foldr lookup list_lookup default from_option id andb
       _DAYS_IN_MONTH firstn];
  try destruct (_is_leap _); cbn [andb].

(** A valid day stays inside its month, and its month inside the year. *)
Lemma day_of_year_bounds (y m d : Z) :
  1 ≤ m ≤ 12 → 1 ≤ d ≤ _days_in_month y m →
  1 ≤ _days_before_month y m + d ≤ 365 + (if _is_leap y then 1 else 0).
Proof. intros Hm. month_split Hm; eval_months; lia. Qed.

Lemma day_of_year_month_lt (y m1 d1 m2 d2 : Z) :
  1 ≤ m1 ≤ 12 → 1 ≤ m2 ≤ 12 → m1 < m2 →
  d1 ≤ _days_in_month y m1 → 1 ≤ d2 →
  _days_before_month y m1 + d1 < _days_before_month y m2 + d2.
Proof.
  intros H1 H2. month_split H1; month_split H2; try lia; eval_months; lia.
Qed.

Lemma ymd2ord_lt (y1 m1 d1 y2 m2 d2 : Z) :
  valid_date y1 m1 d1 → valid_date y2 m2 d2 →
  _ymd2ord y1 m1 d1 < _ymd2ord y2 m2 d2
  ↔ y1 < y2 ∨ (y1 = y2 ∧ (m1 < m2 ∨ (m1 = m2 ∧ d1 < d2))).
Proof.
  intros [Hm1 Hd1] [Hm2 Hd2]. unfold _ymd2ord.
  pose proof (day_of_year_bounds y1 m1 d1 Hm1 Hd1) as Hb1.
  pose proof (day_of_year_bounds y2 m2 d2 Hm2 Hd2) as Hb2.
  destruct (Z.lt_trichotomy y1 y2) as [Hy|[->|Hy]].
  - pose proof (days_before_year_le (y1 + 1) y2 ltac:(lia)) as Hle.
    rewrite days_before_year_succ in Hle. lia.
  - destruct (Z.lt_trichotomy m1 m2) as [Hm|[->|Hm]].
    + pose proof (day_of_year_month_lt y2 m1 d1 m2 d2). lia.
    + lia.
    + pose proof (day_of_year_month_lt y2 m2 d2 m1 d1). lia.
  - pose proof (days_before_year_le (y2 + 1) y1 ltac:(lia)) as Hle.
    rewrite days_before_year_succ in Hle. lia.
Qed.

Lemma valid_inv (d : datetime) :
  valid d →
  valid_date (year d) (month d) (day d)
  ∧ 0 ≤ hour d ≤ 23 ∧ 0 ≤ minute d ≤ 59 ∧ 0 ≤ second d ≤ 59
  ∧ 0 ≤ microsecond d ≤ 999999.
Proof.
  unfold valid, valid_fields, valid_date.
  rewrite !andb_true_iff, !Z.leb_le. lia.
Qed.

Lemma radix_ltb (base x1 r1 x2 r2 : Z) :
  0 ≤ r1 < base → 0 ≤ r2 < base →
  (x1 * base + r1 <? x2 * base + r2)
  = (x1 <? x2) || ((x1 =? x2) && (r1 <? r2)).
Proof.
  intros H1 H2.
  destruct (Z.ltb_spec x1 x2), (Z.eqb_spec x1 x2), (Z.ltb_spec r1 r2),
    (Z.ltb_spec (x1 * base + r1) (x2 * base + r2));
    cbn [orb andb]; try reflexivity; exfalso; nia.
Qed.

Lemma radix_eqb (base x1 r1 x2 r2 : Z) :
  0 ≤ r1 < base → 0 ≤ r2 < base →
  (x1 * base + r1 =? x2 * base + r2) = (x1 =? x2) && (r1 =? r2).
Proof.
  intros H1 H2.
  destruct (Z.eqb_spec x1 x2), (Z.eqb_spec r1 r2),
    (Z.eqb_spec (x1 * base + r1) (x2 * base + r2));
    cbn [andb]; try reflexivity; exfalso; nia.
Qed.

Lemma ymd2ord_ltb (y1 m1 d1 y2 m2 d2 : Z) :
  valid_date y1 m1 d1 → valid_date y2 m2 d2 →
  (_ymd2ord y1 m1 d1 <? _ymd2ord y2 m2 d2)
  = (y1 <? y2) || ((y1 =? y2) && ((m1 <? m2) || ((m1 =? m2) && (d1 <? d2)))).
Proof.
  intros H1 H2. pose proof (ymd2ord_lt _ _ _ _ _ _ H1 H2) as Hlt.
  destruct (Z.ltb_spec (_ymd2ord y1 m1 d1) (_ymd2ord y2 m2 d2)),
    (Z.ltb_spec y1 y2), (Z.eqb_spec y1 y2), (Z.ltb_spec m1 m2),
    (Z.eqb_spec m1 m2), (Z.ltb_spec d1 d2);
    cbn [orb andb]; try reflexivity; exfalso; lia.
Qed.

Lemma ymd2ord_eqb (y1 m1 d1 y2 m2 d2 : Z) :
  valid_date y1 m1 d1 → valid_date y2 m2 d2 →
  (_ymd2ord y1 m1 d1 =? _ymd2ord y2 m2 d2)
  = (y1 =? y2) && ((m1 =? m2) && (d1 =? d2)).
Proof.
  intros H1 H2. pose proof (ymd2ord_lt _ _ _ _ _ _ H1 H2) as Hlt.
  pose proof (ymd2ord_lt _ _ _ _ _ _ H2 H1) as Hgt.
  destruct (Z.eqb_spec (_ymd2ord y1 m1 d1) (_ymd2ord y2 m2 d2)),
    (Z.eqb_spec y1 y2), (Z.eqb_spec m1 m2), (Z.eqb_spec d1 d2);
    cbn [andb]; try reflexivity; exfalso; try lia; congruence.
Qed.

(** Appending a component to a lexicographic comparison. *)
Lemma orb_lex (L l R r Q : bool) :
  (L || (l && R)) || ((l && r) && Q) = L || (l && (R || (r && Q))).
Proof. by destruct L, l, R, r, Q. Qed.

Lemma local_us_lt_fields (a b : datetime) :
  valid a → valid b →
  (local_us a <? local_us b) = lex_ltb (fields a) (fields b).
Proof.
  intros (Hda & Hha & Hma & Hsa & Hua)%valid_inv
         (Hdb & Hhb & Hmb & Hsb & Hub)%valid_inv.
  unfold local_us, fields. cbn [lex_ltb].
  repeat first [ rewrite (radix_ltb 1000000) by lia
               | rewrite (radix_ltb 60) by lia
               | rewrite (radix_eqb 60) by lia
               | rewrite (radix_ltb 24) by lia
               | rewrite (radix_eqb 24) by lia ].
  rewrite ymd2ord_ltb, ymd2ord_eqb by done.
  rewrite andb_false_r, orb_false_r. by rewrite !orb_lex.
Qed.

Lemma local_us_eq_fields (a b : datetime) :
  valid a → valid b →
  local_us a = local_us b ↔ fields a = fields b.
Proof.
  intros (Hda & Hha & Hma & Hsa & Hua)%valid_inv
         (Hdb & Hhb & Hmb & Hsb & Hub)%valid_inv.
  rewrite <- Z.eqb_eq. unfold local_us, fields.
  repeat first [ rewrite (radix_eqb 1000000) by lia
               | rewrite (radix_eqb 60) by lia
               | rewrite (radix_eqb 24) by lia ].
  rewrite ymd2ord_eqb by done.
  rewrite !andb_true_iff, !Z.eqb_eq. split.
  - intros [[[[(-> & -> & ->) ->] ->] ->] ->]. done.
  - intros [= -> -> -> -> -> -> ->]. done.
Qed.

(** On valid values of one [tzinfo], [dt_lt] and [dt_eqb] are the
    comparisons of the fields. *)
Lemma dt_lt_fields (a b : datetime) :
  valid a → valid b → tzinfo a = tzinfo b →
  dt_lt a b = Ok (lex_ltb (fields a) (fields b))
  ∧ dt_eqb a b = bool_decide (fields a = fields b).
Proof.
  intros Ha Hb Htz. unfold dt_lt, dt_eqb, is_aware, instant, utc_us.
  rewrite <- Htz. rewrite <- (local_us_lt_fields a b Ha Hb).
  pose proof (local_us_eq_fields a b Ha Hb) as Heq.
  destruct (tzinfo a) as [off|]; simpl; split; try (f_equal; lia).
  - case_bool_decide as Hf.
    + apply Z.eqb_eq. apply Heq in Hf. lia.
    + apply Z.eqb_neq. intros Hc. apply Hf, Heq. lia.
  - case_bool_decide as Hf.
    + apply Z.eqb_eq. by apply Heq in Hf.
    + apply Z.eqb_neq. intros Hc. by apply Hf, Heq.
Qed.

(** ** The order on sort keys *)

Lemma flag_rank_inj (a b : sort_key_t) : flag_rank a = flag_rank b ↔ a.1 = b.1.
Proof.
  destruct a as [[[] []] ?], b as [[[] []] ?]; unfold flag_rank; simpl;
    split; intros; try lia; try done.
Qed.

Lemma due_lt_spec (d1 d2 : option datetime) :
  (if due_eqb d1 d2 then Ok false else due_lt d1 d2)
  = if bool_decide (due_kind d1 = due_kind d2)
    then Ok (bool_decide (due_instant d1 < due_instant d2))
    else Raise TypeError.
Proof.
  destruct d1 as [x|], d2 as [y|]; simpl; try done.
  unfold dt_eqb, dt_lt.
  destruct (is_aware x), (is_aware y); simpl; try done.
  all: destruct (Z.eqb_spec (instant x) (instant y)) as [Heq|Hne].
  all: try destruct (Z.ltb_spec (instant x) (instant y)).
  all: f_equal; symmetry.
  all: first [ apply bool_decide_eq_true_2; lia
             | apply bool_decide_eq_false_2; lia ].
Qed.

Lemma tuple_lt_spec (a b : sort_key_t) :
  tuple_lt a b
  = if bool_decide (comparable a b) then Ok (bool_decide (key_less a b))
    else Raise TypeError.
Proof.
  destruct a as [[c1 p1] d1], b as [[c2 p2] d2].
  unfold comparable, key_less, flag_rank, tuple_lt.
  cbn [fst snd].
  destruct c1, c2, p1, p2; cbn [Bool.eqb negb bool_lt andb];
    try (rewrite bool_decide_eq_true_2 by (left; lia); f_equal;
         first [ by rewrite bool_decide_eq_true_2 by lia
               | by rewrite bool_decide_eq_false_2 by lia ]).
  all: rewrite due_lt_spec.
  all: destruct (decide (due_kind d1 = due_kind d2)) as [Hk|Hk].
  all: try (rewrite (bool_decide_eq_true_2 (due_kind d1 = due_kind d2)) by done;
            rewrite (bool_decide_eq_true_2 (_ ∨ _)) by (by right);
            f_equal; apply bool_decide_ext; lia).
  all: rewrite (bool_decide_eq_false_2 (due_kind d1 = due_kind d2)) by done.
  all: rewrite (bool_decide_eq_false_2 (_ ∨ _)) by (intros [?|?]; [lia|done]).
  all: done.
Qed.

Lemma tuple_lt_ok (a b : sort_key_t) :
  is_ok (tuple_lt a b) = true ↔ comparable a b.
Proof. rewrite tuple_lt_spec. by case_bool_decide. Qed.

Lemma tuple_lt_false (a b : sort_key_t) :
  tuple_lt a b = Ok false ↔ comparable a b ∧ ¬ key_less a b.
Proof.
  rewrite tuple_lt_spec. repeat case_bool_decide; split;
    try done; try tauto; intros [? ?]; tauto.
Qed.

Lemma tuple_lt_true (a b : sort_key_t) :
  tuple_lt a b = Ok true ↔ comparable a b ∧ key_less a b.
Proof.
  rewrite tuple_lt_spec. repeat case_bool_decide; split;
    try done; try tauto; intros [? ?]; tauto.
Qed.

Lemma comparable_sym (a b : sort_key_t) : comparable a b → comparable b a.
Proof. unfold comparable. intros [?|?]; [left|right]; done. Qed.

Lemma tuple_lt_asym (a b : sort_key_t) :
  tuple_lt a b = Ok true → tuple_lt b a = Ok false.
Proof.
  rewrite tuple_lt_true, tuple_lt_false. intros [Hc Hl].
  split; [by apply comparable_sym|]. unfold key_less in *. lia.
Qed.

Lemma tuple_lt_trans (a b c : sort_key_t) :
  tuple_lt a b = Ok false → tuple_lt b c = Ok false → tuple_lt a c = Ok false.
Proof.
  rewrite !tuple_lt_false. unfold comparable, key_less.
  intros [Hab Hnab] [Hbc Hnbc]. split; [|lia].
  destruct (decide (flag_rank a = flag_rank c)) as [Heq|]; [|by left].
  right. assert (flag_rank a = flag_rank b) as Hfb by lia.
  destruct Hab as [|Hab]; [done|]. destruct Hbc as [|Hbc]; [lia|].
  congruence.
Qed.

(** ** [sorted] with a key *)

Section sorted_facts.
Context {K A : Type} (lt : K → K → result bool) (key : A → result K).
Hypothesis lt_asym : ∀ a b, lt a b = Ok true → lt b a = Ok false.
Hypothesis lt_trans :
  ∀ a b c, lt a b = Ok false → lt b c = Ok false → lt a c = Ok false.

Lemma decorate_keyed (l : list A) (ks : list (K * A)) :
  decorate key l = Ok ks → ks.*2 = l ∧ keyed key ks.
Proof.
  revert ks. induction l as [|x l IH]; intros ks; simpl.
  - intros [= <-]. split; [done|constructor].
  - intros (k & Hk & (ks' & Hks & [= <-])%bind_ok)%bind_ok.
    destruct (IH _ Hks) as [<- Hkeyed]. split; [done|by constructor].
Qed.

Lemma keyed_decorate (ks : list (K * A)) :
  keyed key ks → decorate key ks.*2 = Ok ks.
Proof.
  induction 1 as [|[k x] ks Hk _ IH]; [done|].
  rewrite fmap_cons. cbn [decorate snd]. simpl in Hk. rewrite Hk.
  unfold mbind, result_bind. by rewrite IH.
Qed.

Lemma decorate_ok (l : list A) :
  Forall (fun x => is_ok (key x) = true) l → ∃ ks, decorate key l = Ok ks.
Proof.
  induction 1 as [|x l Hx _ [ks IH]]; simpl; [by eexists|].
  destruct (key x) as [k|]; [|done]. simpl. rewrite IH. by eexists.
Qed.

Lemma sorted_inv (l out : list A) :
  sorted lt key l = Ok out →
  ∃ ks s, decorate key l = Ok ks ∧ sort_decorated lt ks = Ok s
          ∧ out = s.*2 ∧ keyed key s.
Proof.
  unfold sorted.
  intros (ks & Hks & (s & Hs & [= <-])%bind_ok)%bind_ok.
  exists ks, s. repeat split; try done.
  unfold keyed. rewrite (sort_decorated_perm _ _ _ Hs).
  by apply decorate_keyed in Hks as [_ ?].
Qed.

Lemma sorted_perm (l out : list A) : sorted lt key l = Ok out → out ≡ₚ l.
Proof.
  intros (ks & s & Hks & Hs & -> & _)%sorted_inv.
  apply decorate_keyed in Hks as [<- _].
  by rewrite (sort_decorated_perm _ _ _ Hs).
Qed.

(** Sorting the result of a sort returns it unchanged. *)
Lemma sorted_fixed (l out : list A) :
  sorted lt key l = Ok out → sorted lt key out = Ok out.
Proof.
  intros (ks & s & Hks & Hs & -> & Hkeyed)%sorted_inv.
  unfold sorted. rewrite (keyed_decorate _ Hkeyed). simpl.
  rewrite (sort_decorated_fixed lt s); [done|].
  by eapply sort_decorated_sorted.
Qed.

End sorted_facts.

(** ** Lists split by a flag *)

Section partition.
Context {A : Type} (f : A → bool).

Lemma filter_flag_perm (l : list A) :
  filter (fun x => f x = true) l ++ filter (fun x => f x = false) l ≡ₚ l.
Proof.
  induction l as [|x l IH]; [done|]. rewrite !filter_cons.
  destruct (f x); simpl.
  - by rewrite IH.
  - rewrite <- Permutation_middle. by rewrite IH.
Qed.

Lemma filter_flag_all (b : bool) (l : list A) :
  Forall (fun x => f x = b) l → filter (fun x => f x = b) l = l.
Proof.
  induction 1 as [|x l Hx _ IH]; [done|].
  rewrite filter_cons, decide_True by done. by rewrite IH.
Qed.

Lemma filter_flag_none (b : bool) (l : list A) :
  Forall (fun x => f x = negb b) l → filter (fun x => f x = b) l = [].
Proof.
  induction 1 as [|x l Hx _ IH]; [done|].
  rewrite filter_cons, decide_False; [done|].
  rewrite Hx. by destruct b.
Qed.

Lemma Forall_filter_flag (b : bool) (l : list A) :
  Forall (fun x => f x = b) (filter (fun x => f x = b) l).
Proof.
  apply Forall_forall. by intros x [? _]%list_elem_of_filter.
Qed.

End partition.

(** ** Ordering of tasks *)

Section order_facts.
Context `{dt_util}.
Implicit Types (t u : gmap string string) (tasks : list (gmap string string)).

Lemma get_due_date_total t : ∃ d, get_due_date t = Ok d.
Proof.
  unfold get_due_date. destruct (t !! "due") as [[|c s]|];
    rewrite ?extract_date_time_extracted; by eexists.
Qed.

Lemma sort_key_ok t :
  is_Some (t !! "title") → ∃ k, sort_key t = Ok k.
Proof.
  intros [title Ht]. unfold sort_key, getitem. rewrite Ht. simpl.
  destruct (get_due_date_total t) as [d ->]. by eexists.
Qed.

Lemma sort_key_completed t k : sort_key t = Ok k → k.1.1 = is_completed t.
Proof.
  unfold sort_key.
  by intros (title & _ & (d & _ & [= <-])%bind_ok)%bind_ok.
Qed.

Lemma is_completed_true t :
  is_completed t = true ↔ t !! "status" = Some "completed".
Proof. unfold is_completed. by rewrite bool_decide_eq_true. Qed.

Lemma is_completed_false t :
  is_completed t = false ↔ t !! "status" ≠ Some "completed".
Proof. unfold is_completed. by rewrite bool_decide_eq_false. Qed.

Lemma keyed_compared (ks : list (sort_key_t * gmap string string)) :
  keyed sort_key ks → uniform_ties ks.*2 →
  ForallOrdPairs (compared tuple_lt) ks.
Proof.
  intros Hkeyed Huni. apply ForallPairs_ForallOrdPairs.
  intros p q Hp%list_elem_of_In Hq%list_elem_of_In.
  unfold compared. apply tuple_lt_ok.
  destruct (decide (flag_rank q.1 = flag_rank p.1)) as [Heq|]; [|by left].
  right. unfold keyed in Hkeyed. rewrite Forall_forall in Hkeyed.
  apply (Huni q.2 p.2); try (by apply Hkeyed);
    try (by apply list_elem_of_fmap_2).
  by apply flag_rank_inj.
Qed.

Lemma keyed_key_le (s : list (sort_key_t * gmap string string)) :
  keyed sort_key s → StronglySorted (not_after tuple_lt) s →
  StronglySorted key_le s.*2.
Proof.
  intros Hkeyed Hs. induction Hs as [|p s Hs IH Hp]; [constructor|].
  apply Forall_cons in Hkeyed as [Hkp Hkeyed].
  rewrite fmap_cons. constructor; [by apply IH|].
  apply Forall_fmap, Forall_forall. intros q Hq. simpl.
  rewrite Forall_forall in Hp, Hkeyed.
  exists p.1, q.1. repeat split; [done|by apply Hkeyed|by apply Hp].
Qed.

Lemma keyed_ties_with t (s : list (sort_key_t * gmap string string)) :
  keyed sort_key s →
  filter (fun u => ties_with t u = true) s.*2
  = (filter (fun p => match sort_key t with
                      | Ok kt => tied tuple_lt kt p
                      | Raise _ => false
                      end = true) s).*2.
Proof.
  induction 1 as [|[k u] s Hk _ IH]; [done|].
  rewrite fmap_cons, !filter_cons, IH. simpl in Hk |- *.
  unfold ties_with. rewrite Hk.
  destruct (sort_key t) as [kt|]; [|done].
  unfold tied. simpl. by destruct (decide _).
Qed.

(** [sorted] on the tasks of one partition. *)
Lemma sorted_tasks tasks :
  Forall (fun t => is_Some (t !! "title")) tasks → uniform_ties tasks →
  ∃ out,
    sorted tuple_lt sort_key tasks = Ok out
    ∧ out ≡ₚ tasks
    ∧ StronglySorted key_le out
    ∧ ∀ t, filter (fun u => ties_with t u = true) out
           = filter (fun u => ties_with t u = true) tasks.
Proof.
  intros Htitle Huni.
  destruct (decorate_ok sort_key tasks) as [ks Hks].
  { eapply Forall_impl; [exact Htitle|]. intros t Ht.
    by destruct (sort_key_ok t Ht) as [k ->]. }
  destruct (decorate_keyed _ _ _ Hks) as [Hsnd Hkeyed].
  destruct (sort_decorated_ok tuple_lt ks) as [s Hs].
  { apply keyed_compared; [done|by rewrite Hsnd]. }
  assert (keyed sort_key s) as Hkeyed'.
  { unfold keyed. by rewrite (sort_decorated_perm _ _ _ Hs). }
  exists s.*2. unfold sorted. rewrite Hks. simpl. rewrite Hs. simpl.
  split; [done|]. split; [|split].
  - by rewrite (sort_decorated_perm _ _ _ Hs), Hsnd.
  - apply keyed_key_le; [done|].
    eapply sort_decorated_sorted; [apply tuple_lt_asym|apply tuple_lt_trans|done].
  - intros t. rewrite <- Hsnd, !keyed_ties_with by done. f_equal.
    destruct (sort_key t) as [kt|];
      [|by rewrite !(filter_flag_none (fun _ => false) true)
          by (by apply Forall_forall)].
    eapply sort_decorated_stable; [apply tuple_lt_trans|done].
Qed.

Lemma uniform_ties_filter (P : gmap string string → Prop)
    `{∀ t, Decision (P t)} tasks :
  uniform_ties tasks → uniform_ties (filter P tasks).
Proof.
  intros Huni t1 t2 k1 k2 [_ H1]%list_elem_of_filter [_ H2]%list_elem_of_filter.
  by apply Huni.
Qed.

Lemma Forall_title_filter (P : gmap string string → Prop)
    `{∀ t, Decision (P t)} tasks :
  Forall (fun t => is_Some (t !! "title")) tasks →
  Forall (fun t => is_Some (t !! "title")) (filter P tasks).
Proof.
  rewrite !Forall_forall. intros Hall t [_ Ht]%list_elem_of_filter. auto.
Qed.

Lemma order_tasks_inv tasks out :
  _order_tasks tasks = Ok out →
  ∃ finished pending,
    out = finished ++ pending
    ∧ sorted tuple_lt sort_key
        (filter (fun t => is_completed t = true) tasks) = Ok finished
    ∧ sorted tuple_lt sort_key
        (filter (fun t => is_completed t = false) tasks) = Ok pending.
Proof.
  unfold _order_tasks.
  intros (pending & Hp & (finished & Hf & [= <-])%bind_ok)%bind_ok.
  by exists finished, pending.
Qed.

Lemma sorted_flag (b : bool) tasks out :
  sorted tuple_lt sort_key (filter (fun t => is_completed t = b) tasks) = Ok out →
  Forall (fun t => is_completed t = b) out.
Proof.
  intros ->%sorted_perm. apply Forall_filter_flag.
Qed.

(** X19.  On a list whose records all have a title
    and whose tasks with equal flags have dues of one kind,
    [_order_tasks] returns a permutation of the list in which the
    completed records come first; each of the two parts is sorted
    ascending by the key, and the records whose keys tie stand in their
    input order. *)
Theorem order_tasks_sorted_permutation tasks :
  Forall (fun t => is_Some (t !! "title")) tasks →
  uniform_ties tasks →
  ∃ finished pending,
    _order_tasks tasks = Ok (finished ++ pending)
    ∧ finished ++ pending ≡ₚ tasks
    ∧ Forall (fun t => t !! "status" = Some "completed") finished
    ∧ Forall (fun t => t !! "status" ≠ Some "completed") pending
    ∧ StronglySorted key_le finished
    ∧ StronglySorted key_le pending
    ∧ ∀ t,
        filter (fun u => ties_with t u = true) finished
        = filter (fun u => ties_with t u = true)
            (filter (fun u => is_completed u = true) tasks)
        ∧ filter (fun u => ties_with t u = true) pending
          = filter (fun u => ties_with t u = true)
              (filter (fun u => is_completed u = false) tasks).
Proof.
  intros Htitle Huni.
  destruct (sorted_tasks (filter (fun t => is_completed t = true) tasks))
    as (finished & Hf & Hfp & Hfs & Hft);
    [by apply Forall_title_filter|by apply uniform_ties_filter|].
  destruct (sorted_tasks (filter (fun t => is_completed t = false) tasks))
    as (pending & Hp & Hpp & Hps & Hpt);
    [by apply Forall_title_filter|by apply uniform_ties_filter|].
  exists finished, pending. unfold _order_tasks. rewrite Hp, Hf. simpl.
  split; [done|]. split; [by rewrite Hfp, Hpp, filter_flag_perm|].
  split; [|split].
  - eapply Forall_impl; [by eapply sorted_flag|].
    intros t. apply is_completed_true.
  - eapply Forall_impl; [by eapply sorted_flag|].
    intros t. apply is_completed_false.
  - repeat split; done.
Qed.

(** C6.  Ordering the result of [_order_tasks] gives that result again:
    when the first call returns a list the second call returns the same
    list, and when the first call raises the composition raises the
    same exception. *)
Theorem order_tasks_idempotent tasks :
  _order_tasks tasks ≫= _order_tasks = _order_tasks tasks.
Proof.
  destruct (_order_tasks tasks) as [out|e] eqn:Hout; [|done]. simpl.
  apply order_tasks_inv in Hout as (finished & pending & -> & Hf & Hp).
  pose proof (sorted_flag _ _ _ Hf) as Hfc.
  pose proof (sorted_flag _ _ _ Hp) as Hpc.
  unfold _order_tasks. rewrite !filter_app.
  rewrite (filter_flag_none is_completed false finished) by done.
  rewrite (filter_flag_all is_completed false pending) by done.
  rewrite (filter_flag_all is_completed true finished) by done.
  rewrite (filter_flag_none is_completed true pending) by done.
  rewrite app_nil_r. simpl.
  rewrite (sorted_fixed tuple_lt sort_key tuple_lt_asym tuple_lt_trans _ _ Hp).
  simpl.
  by rewrite (sorted_fixed tuple_lt sort_key tuple_lt_asym tuple_lt_trans _ _ Hf).
Qed.

Lemma sorted_uniform_ties tasks out :
  sorted tuple_lt sort_key tasks = Ok out → uniform_ties tasks.
Proof.
  intros (ks & s & Hks & Hs & _ & _)%sorted_inv.
  apply decorate_keyed in Hks as [<- Hkeyed].
  eapply sort_decorated_compared in Hs;
    [|apply tuple_lt_asym|apply tuple_lt_trans].
  unfold keyed in Hkeyed. rewrite Forall_forall in Hkeyed.
  intros t1 t2 k1 k2 (p & -> & Hp)%list_elem_of_fmap
    (q & -> & Hq)%list_elem_of_fmap Hk1 Hk2 Hflags.
  rewrite (Hkeyed p Hp) in Hk1. rewrite (Hkeyed q Hq) in Hk2.
  injection Hk1 as <-. injection Hk2 as <-.
  apply flag_rank_inj in Hflags.
  apply list_elem_of_In in Hp, Hq.
  destruct (ForallOrdPairs_In Hs p q Hp Hq) as [->|[Hc|Hc]]; [done| |];
    unfold compared in Hc; apply tuple_lt_ok in Hc as [?|?]; done.
Qed.

Lemma order_tasks_uniform_ties tasks out :
  _order_tasks tasks = Ok out → uniform_ties tasks.
Proof.
  intros (finished & pending & _ & Hf%sorted_uniform_ties
          & Hp%sorted_uniform_ties)%order_tasks_inv.
  intros t1 t2 k1 k2 H1 H2 Hk1 Hk2 Hflags.
  assert (is_completed t1 = is_completed t2) as Hc.
  { rewrite <- (sort_key_completed _ _ Hk1), <- (sort_key_completed _ _ Hk2).
    by rewrite Hflags. }
  destruct (is_completed t2) eqn:Hc2.
  - apply (Hf t1 t2 k1 k2); try done; by apply list_elem_of_filter.
  - apply (Hp t1 t2 k1 k2); try done; by apply list_elem_of_filter.
Qed.

End order_facts.

(** ** Ordering on concrete lists *)

Lemma order_tasks_sorted_permutation_witness :
  ∃ finished pending,
    _order_tasks sample_tasks = Ok (finished ++ pending)
    ∧ finished ++ pending ≡ₚ sample_tasks
    ∧ Forall (fun t => t !! "status" = Some "completed") finished
    ∧ Forall (fun t => t !! "status" ≠ Some "completed") pending
    ∧ StronglySorted key_le finished
    ∧ StronglySorted key_le pending
    ∧ ∀ t,
        filter (fun u => ties_with t u = true) finished
        = filter (fun u => ties_with t u = true)
            (filter (fun u => is_completed u = true) sample_tasks)
        ∧ filter (fun u => ties_with t u = true) pending
          = filter (fun u => ties_with t u = true)
              (filter (fun u => is_completed u = false) sample_tasks).
Proof.
  apply (order_tasks_sorted_permutation sample_tasks).
  - repeat constructor; eexists; vm_compute; reflexivity.
  - intros t1 t2 k1 k2 H1 H2 Hk1 Hk2 Hflags.
    unfold sample_tasks in H1, H2.
    rewrite !elem_of_cons, elem_of_nil in H1, H2.
    destruct H1 as [->|[->|[->|[->|[]]]]];
      destruct H2 as [->|[->|[->|[->|[]]]]];
      vm_compute in Hk1, Hk2;
      injection Hk1 as <-; injection Hk2 as <-;
      first [reflexivity | discriminate Hflags].
Defined.

(** The sample list: the completed record first, then the priority task,
    the task with a date in its title, and the task without. *)
Example order_tasks_sample :
  match _order_tasks sample_tasks with
  | Ok ordered => (fun task => task !! "id") <$> ordered
  | Raise _ => []
  end = [Some "2"; Some "3"; Some "4"; Some "1"].
Proof. vm_compute. reflexivity. Qed.

(** C1.  [_order_tasks] does not return on every list of well-formed
    records.  Of the two pending tasks below, neither with a priority
    phrase, the first has a [due] with an offset, which parses to an
    aware value; the second has no [due] and no date in its text and
    gets the naive [datetime.max], the value that is to sort it last.
    Each of the two is ordered alone; the list of the two raises
    [TypeError], in either input order. *)
Theorem order_tasks_aware_due_meets_sentinel :
  get_due_date task_due_offset
  = Ok (Some (mkdt 2024 11 28 10 0 0 0 (Some 0)))
  ∧ get_due_date task_no_due = Ok (Some datetime_max)
  ∧ tzinfo datetime_max = None
  ∧ is_ok (_order_tasks [task_due_offset]) = true
  ∧ is_ok (_order_tasks [task_no_due]) = true
  ∧ _order_tasks [task_due_offset; task_no_due] = Raise TypeError
  ∧ _order_tasks [task_no_due; task_due_offset] = Raise TypeError.
Proof. by vm_compute. Qed.

(** [_order_tasks] raises on a record without a title, and on two
    pending tasks of equal priority of which one has a due with an
    offset and the other has no due. *)
Lemma order_tasks_may_raise :
  _order_tasks [task_no_title] = Raise (KeyError "title")
  ∧ _order_tasks [task_due_offset; task_no_due] = Raise TypeError.
Proof. by vm_compute. Qed.

(** C10.  [_order_tasks] is not total.  The two pending tasks below have
    equal flags; the due of the first parses to an aware value, the
    second has no due and gets the naive [datetime.max]; comparing their
    keys raises, and so does the ordering.  And whenever [_order_tasks]
    returns, the tasks with equal flags have dues of one kind. *)
Theorem order_tasks_total_only_on_uniform_ties :
  (sort_key task_due_offset
   = Ok (false, true, Some (mkdt 2024 11 28 10 0 0 0 (Some 0)))
   ∧ sort_key task_no_due = Ok (false, true, Some datetime_max)
   ∧ tuple_lt (false, true, Some datetime_max)
              (false, true, Some (mkdt 2024 11 28 10 0 0 0 (Some 0)))
     = Raise TypeError
   ∧ _order_tasks [task_due_offset; task_no_due] = Raise TypeError)
  ∧ ∀ (U : dt_util) (tasks out : list (gmap string string)),
      _order_tasks tasks = Ok out → uniform_ties tasks.
Proof.
  split; [by vm_compute|].
  intros U tasks out. apply order_tasks_uniform_ties.
Qed.

(** * Further properties *)

(** ** What the extractor returns *)

Lemma new_datetime_ok y mo d h mi s us tz (dt : datetime) :
  new_datetime y mo d h mi s us tz = Ok dt →
  valid dt ∧ dt = mkdt y mo d h mi s us tz.
Proof.
  unfold new_datetime, valid.
  destruct (valid_fields y mo d h mi s us) eqn:Hv; [|discriminate].
  by intros [= <-].
Qed.

Lemma strptime_ok (data format : string) (d : datetime) :
  strptime data format = Ok d →
  valid d ∧ tzinfo d = None ∧ second d = 0 ∧ microsecond d = 0.
Proof.
  unfold strptime. intros (r & _ & Hm)%bind_ok.
  destruct (re_match_ic r data) as [[[|? ?] caps]|]; try discriminate.
  apply new_datetime_ok in Hm as [Hv ->]. done.
Qed.

Lemma date_loop_ok (text : string) (d : datetime) :
  date_loop DATE_PATTERNS text = Ok (Some d) →
  valid d ∧ tzinfo d = None ∧ second d = 0 ∧ microsecond d = 0
  ∧ hour d = 0 ∧ minute d = 0.
Proof.
  intros (p & f & m & Hin & _ & Hp)%date_loop_some.
  destruct (strptime_ok _ _ _ Hp) as (? & ? & ? & ?).
  destruct (date_patterns_midnight _ _ _ _ Hin Hp). done.
Qed.

Lemma extract_date_time_some (text : string) (d : datetime)
    (t : option string) :
  _extract_date_time text = Ok (Some d, t) →
  valid d ∧ tzinfo d = None ∧ second d = 0 ∧ microsecond d = 0
  ∧ (t = None → hour d = 0 ∧ minute d = 0).
Proof.
  unfold _extract_date_time.
  intros ([d0|] & Hloop & Hrest)%bind_ok; [|by destruct (re_search _ _)].
  destruct (date_loop_ok _ _ Hloop) as (Hv & Htz & Hs & Hus & Hh & Hmi).
  destruct (re_search TIME_PATTERN text) as [time|];
    [|injection Hrest as <- <-; done].
  destruct (String.eqb time ""); [injection Hrest as <- <-; done|].
  destruct (parse_time_obj time) as [time_obj|e]; simpl in Hrest.
  - unfold replace_hour_minute in Hrest.
    destruct (new_datetime _ _ _ _ _ _ _ _) as [d'|e] eqn:Hn; simpl in Hrest.
    + injection Hrest as <- <-.
      apply new_datetime_ok in Hn as [Hv' ->]. simpl. done.
    + destruct e; simpl in Hrest; try discriminate.
      injection Hrest as <- <-; done.
  - destruct e; simpl in Hrest; try discriminate.
    injection Hrest as <- <-; done.
Qed.

(** X1.  A date that [_extract_date_time] returns is a value the
    [datetime] constructor accepts, it is naive, and its seconds and
    microseconds are zero; without a time match it is at midnight. *)
Theorem extract_date_is_valid_naive (text : string) (d : datetime)
    (t : option string) :
  _extract_date_time text = Ok (Some d, t) →
  valid d ∧ tzinfo d = None ∧ second d = 0 ∧ microsecond d = 0
  ∧ (t = None → hour d = 0 ∧ minute d = 0).
Proof. apply extract_date_time_some. Qed.

Lemma extract_date_is_valid_naive_witness :
  valid (mkdt 2024 11 27 18 0 0 0 None)
  ∧ tzinfo (mkdt 2024 11 27 18 0 0 0 None) = None
  ∧ second (mkdt 2024 11 27 18 0 0 0 None) = 0
  ∧ microsecond (mkdt 2024 11 27 18 0 0 0 None) = 0
  ∧ (Some "18:00" = None →
     hour (mkdt 2024 11 27 18 0 0 0 None) = 0
     ∧ minute (mkdt 2024 11 27 18 0 0 0 None) = 0).
Proof.
  apply (extract_date_is_valid_naive "Meeting on 27 Nov 2024 at 18:00").
  vm_compute. reflexivity.
Defined.

(** ** Text without a digit *)

Lemma needs_digit_digits (lo hi : nat) :
  (1 ≤ lo)%nat → needs_digit (digits lo hi).
Proof.
  intros Hlo w [Hall Hlen]%lang_digits.
  destruct Hall as [|c w Hc _]; [simpl in Hlen; lia|]. by constructor.
Qed.

Lemma needs_digit_cat_all (rs : list regex) :
  Exists needs_digit rs → needs_digit (cat_all rs).
Proof.
  induction 1 as [r rs Hr|r rs _ IH];
    intros w (w1 & w2 & -> & H1 & H2)%lang_cat_all_cons;
    apply Exists_app; [left|right]; auto.
Qed.

Lemma needs_digit_date_patterns :
  Forall (fun p => needs_digit p.1) DATE_PATTERNS.
Proof.
  unfold DATE_PATTERNS.
  repeat (apply List.Forall_cons;
          [ cbn [fst]; apply needs_digit_cat_all;
            first [ apply Exists_cons_hd; apply needs_digit_digits; lia
                  | apply Exists_cons_tl, Exists_cons_tl, Exists_cons_hd;
                    apply needs_digit_digits; lia ] | ]).
  apply List.Forall_nil.
Qed.

Lemma needs_digit_time_pattern : needs_digit TIME_PATTERN.
Proof.
  unfold TIME_PATTERN. intros w Hw.
  change (lang false (Grp ?n ?r) w) with (lang false r w) in Hw.
  revert w Hw. apply needs_digit_cat_all, Exists_cons_hd.
  apply needs_digit_digits. lia.
Qed.

Lemma re_search_no_digit (r : regex) (text : string) :
  needs_digit r → no_digit text → re_search r text = None.
Proof.
  intros Hr Htext. destruct (re_search r text) as [t|] eqn:Hs; [|done].
  apply re_search_sound in Hs as [(pre & post & ->) Hw%Hr].
  unfold no_digit in Htext.
  rewrite !list_ascii_of_string_app, !Forall_app in Htext.
  destruct Htext as (_ & Ht & _).
  apply Exists_exists in Hw as (c & Hin & Hc).
  rewrite Forall_forall in Ht. by rewrite (Ht c Hin) in Hc.
Qed.

Lemma extract_date_time_no_digit (text : string) :
  no_digit text → _extract_date_time text = Ok (None, None).
Proof.
  intros Htext. unfold _extract_date_time.
  rewrite (date_loop_none DATE_PATTERNS text).
  - simpl. by rewrite (re_search_no_digit _ _ needs_digit_time_pattern Htext).
  - intros pattern format m Hin Hs.
    pose proof needs_digit_date_patterns as Hall.
    rewrite Forall_forall in Hall. specialize (Hall _ Hin). simpl in Hall.
    by rewrite (re_search_no_digit _ _ Hall Htext) in Hs.
Qed.

(** X2.  On a text without a decimal digit, the empty text included,
    [_extract_date_time] finds neither a date nor a time. *)
Theorem extract_no_digit (text : string) :
  no_digit text → _extract_date_time text = Ok (None, None).
Proof. apply extract_date_time_no_digit. Qed.

Lemma extract_no_digit_witness :
  _extract_date_time "Meeting on invalid date" = Ok (None, None).
Proof.
  apply (extract_no_digit "Meeting on invalid date").
  unfold no_digit. vm_compute. repeat constructor.
Defined.

(** ** Priority detection: case and fields *)

Lemma append_assoc (a b c : string) : (a +:+ b) +:+ c = a +:+ b +:+ c.
Proof. induction a as [|x a IH]; [done|]. rewrite !append_cons. by rewrite IH. Qed.

Lemma lower_app (a b : string) : lower (a +:+ b) = lower a +:+ lower b.
Proof.
  induction a as [|x a IH]; [done|]. rewrite append_cons. simpl.
  by rewrite IH, append_cons.
Qed.

Lemma is_substring_app_l (needle a b : string) :
  is_substring needle a → is_substring needle (a +:+ b).
Proof.
  intros (pre & post & ->). exists pre, (post +:+ b).
  by rewrite !append_assoc.
Qed.

Lemma is_substring_app_r (needle a b : string) :
  is_substring needle b → is_substring needle (a +:+ b).
Proof.
  intros (pre & post & ->). exists (a +:+ pre), post.
  by rewrite !append_assoc.
Qed.

(** X3.  [_is_priority_task] does not see the case of its arguments, and
    absent notes count as empty notes: two titles with one lower-casing
    and two notes with one lower-casing give the same answer. *)
Theorem is_priority_task_ignores_case (title1 title2 : string)
    (notes1 notes2 : option string) :
  lower title1 = lower title2 →
  lower (or_empty notes1) = lower (or_empty notes2) →
  _is_priority_task title1 notes1 = _is_priority_task title2 notes2.
Proof.
  intros Ht Hn. unfold _is_priority_task.
  by rewrite !lower_app, Ht, Hn.
Qed.

Lemma is_priority_task_ignores_case_witness :
  _is_priority_task "URGENT call" None
  = _is_priority_task "urgent CALL" (Some "").
Proof.
  apply (is_priority_task_ignores_case "URGENT call" "urgent CALL" None
           (Some "")); reflexivity.
Defined.

(** X4.  A priority phrase in the title alone, or in the notes alone,
    makes the task a priority task whatever the other field holds. *)
Theorem is_priority_task_either_field (phrase title : string)
    (notes : option string) :
  phrase ∈ PRIORITY_KEYWORDS →
  is_substring (lower phrase) (lower title)
  ∨ is_substring (lower phrase) (lower (or_empty notes)) →
  _is_priority_task title notes = true.
Proof.
  intros Hin Hsub. unfold _is_priority_task. apply existsb_exists.
  exists phrase. split; [by apply list_elem_of_In|].
  apply str_in_spec. rewrite !lower_app.
  destruct Hsub as [Ht|Hn].
  - by apply is_substring_app_l.
  - by apply is_substring_app_r, is_substring_app_r.
Qed.

Lemma is_priority_task_either_field_witness :
  _is_priority_task "Weekly report" (Some "this is CRITICAL") = true.
Proof.
  apply (is_priority_task_either_field "Critical").
  - unfold PRIORITY_KEYWORDS. rewrite !elem_of_cons. tauto.
  - right. apply str_in_spec. vm_compute. reflexivity.
Defined.

(** ** The effective due of a task *)




Section effective_due.
Context `{dt_util}.

Lemma get_due_date_fallback (task : gmap string string) :
  task !! "due" = None ∨ task !! "due" = Some "" →
  get_due_date task
  = Ok (Some (default datetime_max (extracted_date task))).
Proof.
  unfold get_due_date. rewrite extract_date_time_extracted.
  by intros [-> | ->].
Qed.

Lemma extracted_date_valid (task : gmap string string) (d : datetime) :
  extracted_date task = Some d → valid d ∧ tzinfo d = None.
Proof.
  intros Hd. pose proof (extract_date_time_extracted task) as Hex.
  rewrite Hd in Hex.
  by destruct (extract_date_time_some _ _ _ Hex) as (? & ? & _).
Qed.

(** X5.  The effective due that the ordering computes is missing only
    for a non-empty [due] that does not parse: a non-empty [due] gives
    its parse.  For an absent or empty [due] it is the date that
    [_extract_date_time] finds in the title and the notes, or
    [datetime.max] when it finds none; either is a valid naive value. *)
Theorem get_due_date_missing_iff (task : gmap string string) :
  (get_due_date task = Ok None
   ↔ ∃ due_str, task !! "due" = Some due_str ∧ due_str ≠ ""
                ∧ parse_datetime due_str = None)
  ∧ (∀ due_str,
       task !! "due" = Some due_str → due_str ≠ "" →
       get_due_date task = Ok (parse_datetime due_str))
  ∧ (task !! "due" = None ∨ task !! "due" = Some "" →
     ∃ date time,
       _extract_date_time
         (default "" (task !! "title") +:+ " "
          +:+ default "" (task !! "notes")) = Ok (date, time)
       ∧ get_due_date task = Ok (Some (default datetime_max date))
       ∧ valid (default datetime_max date)
       ∧ tzinfo (default datetime_max date) = None).
Proof.
  split; [|split].
  - split.
    + destruct (task !! "due") as [[|c s]|] eqn:Hdue.
      * rewrite get_due_date_fallback by auto. discriminate.
      * unfold get_due_date. rewrite Hdue. intros [= Hp].
        exists (String c s). done.
      * rewrite get_due_date_fallback by auto. discriminate.
    + intros (due_str & Hdue & Hne & Hp). unfold get_due_date.
      rewrite Hdue. destruct due_str; [done|]. by rewrite Hp.
  - intros due_str Hdue Hne. unfold get_due_date. rewrite Hdue.
    by destruct due_str.
  - intros Hdue. rewrite get_due_date_fallback by done.
    pose proof (extract_date_time_extracted task) as Hex.
    eexists _, _. split; [exact Hex|]. split; [done|].
    destruct (extracted_date task) as [d|] eqn:Hd; simpl.
    + by destruct (extracted_date_valid _ _ Hd).
    + done.
Qed.


End effective_due.


(** ** When the ordering returns, and what it raises *)

Section order_domain.
Context `{dt_util}.
Implicit Types (t u : gmap string string) (tasks : list (gmap string string)).

Lemma sort_key_raise t e : sort_key t = Raise e → e = KeyError "title".
Proof.
  unfold sort_key, getitem. destruct (t !! "title") as [title|]; simpl.
  - destruct (get_due_date_total t) as [d ->]. discriminate.
  - by intros [= <-].
Qed.

Lemma sort_key_title t k : sort_key t = Ok k → is_Some (t !! "title").
Proof.
  unfold sort_key, getitem. destruct (t !! "title") as [title|]; [eauto|].
  discriminate.
Qed.

Lemma sort_key_priority t k : sort_key t = Ok k → k.1.2 = negb (has_priority t).
Proof.
  unfold sort_key, getitem, has_priority.
  destruct (t !! "title") as [title|]; [|discriminate]. simpl.
  by intros (d & _ & [= <-])%bind_ok.
Qed.

Lemma tuple_lt_raise (a b : sort_key_t) e : tuple_lt a b = Raise e → e = TypeError.
Proof. rewrite tuple_lt_spec. case_bool_decide; congruence. Qed.

Lemma decorate_raise tasks e :
  decorate sort_key tasks = Raise e → e = KeyError "title".
Proof.
  induction tasks as [|t tasks IH]; simpl; [discriminate|].
  intros [Hk|(k & _ & [Hr|(ks & _ & [=])]%bind_raise)]%bind_raise.
  - by eapply sort_key_raise.
  - by apply IH.
Qed.

Lemma insert_sorted_raise (x : sort_key_t * gmap string string) l e :
  insert_sorted tuple_lt x l = Raise e → e = TypeError.
Proof.
  induction l as [|y l IH]; simpl; [discriminate|].
  intros [Hlt|([] & _ & Hr)]%bind_raise.
  - by eapply tuple_lt_raise.
  - apply bind_raise in Hr as [Hr|(r & _ & [=])]. by apply IH.
  - discriminate.
Qed.

Lemma sort_decorated_raise (l : list (sort_key_t * gmap string string)) e :
  sort_decorated tuple_lt l = Raise e → e = TypeError.
Proof.
  induction l as [|x l IH]; simpl; [discriminate|].
  intros [Hr|(s & _ & Hr)]%bind_raise; [by apply IH|].
  by eapply insert_sorted_raise.
Qed.

Lemma sorted_raise tasks e :
  sorted tuple_lt sort_key tasks = Raise e →
  e = KeyError "title" ∨ e = TypeError.
Proof.
  unfold sorted.
  intros [Hr|(ks & _ & [Hr|(s & _ & [=])]%bind_raise)]%bind_raise.
  - left. by eapply decorate_raise.
  - right. by eapply sort_decorated_raise.
Qed.

Lemma sorted_titles tasks out :
  sorted tuple_lt sort_key tasks = Ok out →
  Forall (fun t => is_Some (t !! "title")) tasks.
Proof.
  intros (ks & s & Hks & _)%sorted_inv.
  apply decorate_keyed in Hks as [<- Hkeyed].
  apply Forall_fmap. eapply Forall_impl; [exact Hkeyed|].
  intros [k t] Hk. simpl in *. by eapply sort_key_title.
Qed.

Lemma order_tasks_titles tasks out :
  _order_tasks tasks = Ok out →
  Forall (fun t => is_Some (t !! "title")) tasks.
Proof.
  intros (finished & pending & _ & Hf%sorted_titles
          & Hp%sorted_titles)%order_tasks_inv.
  rewrite Forall_forall in Hf, Hp. apply Forall_forall. intros t Ht.
  destruct (is_completed t) eqn:Hc; [apply Hf|apply Hp];
    by apply list_elem_of_filter.
Qed.

(** X7.  [_order_tasks] returns exactly on the lists whose records all
    have a title and whose tasks of equal flags have dues of one kind.
    On any other list it raises [KeyError] for the title or
    [TypeError]. *)
Theorem order_tasks_returns_iff tasks :
  ((∃ out, _order_tasks tasks = Ok out)
   ↔ Forall (fun t => is_Some (t !! "title")) tasks ∧ uniform_ties tasks)
  ∧ (∀ e, _order_tasks tasks = Raise e →
          e = KeyError "title" ∨ e = TypeError).
Proof.
  split; [split|].
  - intros [out Hout]. split.
    + by eapply order_tasks_titles.
    + by eapply order_tasks_uniform_ties.
  - intros [Htitle Huni].
    destruct (sorted_tasks (filter (fun t => is_completed t = true) tasks))
      as (finished & Hf & _);
      [by apply Forall_title_filter|by apply uniform_ties_filter|].
    destruct (sorted_tasks (filter (fun t => is_completed t = false) tasks))
      as (pending & Hp & _);
      [by apply Forall_title_filter|by apply uniform_ties_filter|].
    exists (finished ++ pending). unfold _order_tasks. by rewrite Hp, Hf.
  - intros e. unfold _order_tasks.
    intros [Hr|(pending & _ & [Hr|(finished & _ & [=])]%bind_raise)]%bind_raise;
      by eapply sorted_raise.
Qed.

Lemma key_le_listed_before t u :
  is_completed t = is_completed u → key_le t u →
  has_priority u = true → has_priority t = true.
Proof.
  intros Hc (kt & ku & Hkt & Hku & Hlt) Hpu.
  destruct (has_priority t) eqn:Hpt; [done|exfalso].
  apply tuple_lt_false in Hlt as [_ Hnot]. apply Hnot. left.
  pose proof (sort_key_completed _ _ Hkt) as Hct.
  pose proof (sort_key_completed _ _ Hku) as Hcu.
  pose proof (sort_key_priority _ _ Hkt) as Hp1.
  pose proof (sort_key_priority _ _ Hku) as Hp2.
  unfold flag_rank. rewrite Hct, Hcu, Hp1, Hp2, Hpt, Hpu, Hc. simpl.
  destruct (is_completed u); lia.
Qed.

(** X8.  Whenever [_order_tasks] returns, its result is a permutation of
    its argument in which no pending record stands before a completed
    one and, among records of one completion state, no record without a
    priority phrase stands before one with a priority phrase. *)
Theorem order_tasks_listing tasks out :
  _order_tasks tasks = Ok out →
  out ≡ₚ tasks ∧ StronglySorted listed_before out.
Proof.
  intros Hout.
  pose proof (order_tasks_titles _ _ Hout) as Htitle.
  pose proof (order_tasks_uniform_ties _ _ Hout) as Huni.
  apply order_tasks_inv in Hout as (finished & pending & -> & Hf & Hp).
  pose proof (sorted_flag _ _ _ Hf) as Hfc.
  pose proof (sorted_flag _ _ _ Hp) as Hpc.
  rewrite Forall_forall in Hfc, Hpc.
  destruct (sorted_tasks (filter (fun t => is_completed t = true) tasks))
    as (finished' & Hf' & Hfp & Hfs & _);
    [by apply Forall_title_filter|by apply uniform_ties_filter|].
  destruct (sorted_tasks (filter (fun t => is_completed t = false) tasks))
    as (pending' & Hp' & Hpp & Hps & _);
    [by apply Forall_title_filter|by apply uniform_ties_filter|].
  rewrite Hf in Hf'. injection Hf' as <-.
  rewrite Hp in Hp'. injection Hp' as <-.
  split; [by rewrite Hfp, Hpp, filter_flag_perm|].
  assert (∀ l, Forall (fun t => ∀ u, u ∈ l → is_completed t = is_completed u) l →
               StronglySorted key_le l → StronglySorted listed_before l) as Hpart.
  { intros l Hsame Hs. induction Hs as [|t l Hs IH Ht]; [constructor|].
    apply Forall_cons in Hsame as [Hsame_t Hsame].
    constructor.
    - apply IH. eapply Forall_impl; [exact Hsame|].
      intros u Hu v Hv. apply Hu. by right.
    - apply Forall_forall. intros u Hu.
      rewrite Forall_forall in Ht. specialize (Ht u Hu).
      assert (is_completed t = is_completed u) as Hc
        by (apply Hsame_t; by right).
      split; [by rewrite Hc|]. intros _. by apply key_le_listed_before. }
  apply StronglySorted_app. split; [|split].
  - intros t u Ht%Hfc Hu%Hpc. split; [by rewrite Hu|]. by rewrite Ht, Hu.
  - apply Hpart; [|done]. apply Forall_forall. intros t Ht u Hu.
    by rewrite (Hfc t Ht), (Hfc u Hu).
  - apply Hpart; [|done]. apply Forall_forall. intros t Ht u Hu.
    by rewrite (Hpc t Ht), (Hpc u Hu).
Qed.

End order_domain.

Lemma order_tasks_listing_witness :
  [ mk_task "2" "Filed taxes" "completed";
    mk_task "3" "Urgent meeting" "needsAction";
    mk_task "4" "Another task on 2024/01/02" "needsAction";
    mk_task "1" "Regular task" "needsAction" ] ≡ₚ sample_tasks
  ∧ StronglySorted listed_before
      [ mk_task "2" "Filed taxes" "completed";
        mk_task "3" "Urgent meeting" "needsAction";
        mk_task "4" "Another task on 2024/01/02" "needsAction";
        mk_task "1" "Regular task" "needsAction" ].
Proof.
  apply (order_tasks_listing sample_tasks). vm_compute. reflexivity.
Defined.

(** ** The listing of the entity *)

Section map_result_facts.
Context {A B : Type} (f : A → result B).

Lemma map_result_ok (l : list A) (out : list B) :
  map_result f l = Ok out → Forall2 (fun x y => f x = Ok y) l out.
Proof.
  revert out. induction l as [|x l IH]; simpl; intros out.
  - intros [= <-]. constructor.
  - intros (y & Hy & (ys & Hys & [= <-])%bind_ok)%bind_ok.
    constructor; [done|by apply IH].
Qed.

Lemma map_result_total (l : list A) :
  Forall (fun x => ∃ y, f x = Ok y) l → ∃ out, map_result f l = Ok out.
Proof.
  induction 1 as [|x l [y Hy] _ [ys Hys]]; simpl; [by eexists|].
  rewrite Hy. simpl. rewrite Hys. by eexists.
Qed.

Lemma map_result_raise (l : list A) (e : exn) :
  map_result f l = Raise e → ∃ x, x ∈ l ∧ f x = Raise e.
Proof.
  induction l as [|x l IH]; simpl; [discriminate|].
  intros [Hx|(y & _ & [Hr|(ys & _ & [=])]%bind_raise)]%bind_raise.
  - exists x. split; [left|done].
  - destruct (IH Hr) as (z & Hz & Hfz). exists z. split; [by right|done].
Qed.

End map_result_facts.

Section listing.
Context `{dt_util}.
Implicit Types (t u : gmap string string) (tasks : list (gmap string string)).

Lemma convert_api_item_ok t it :
  _convert_api_item t = Ok it →
  t !! "title" = Some (summary it) ∧ t !! "id" = uid it
  ∧ is_Some (uid it) ∧ t !! "notes" = description it
  ∧ status it = Some (if is_completed t then COMPLETED else NEEDS_ACTION).
Proof.
  unfold _convert_api_item.
  destruct (convert_api_item_due t) as [d ->]. simpl. unfold getitem.
  destruct (t !! "title") as [title|] eqn:Ht; simpl; [|discriminate].
  destruct (t !! "id") as [id|] eqn:Hi; simpl; [|discriminate].
  intros [= <-]. simpl. repeat split; [by eexists|]. f_equal.
  unfold TODO_STATUS_MAP, is_completed.
  destruct (t !! "status") as [s|]; case_bool_decide as Hs; simpl;
    try done.
  - injection Hs as ->. done.
  - destruct (String.eqb_spec s "completed") as [->|Hne]; done.
Qed.

Lemma convert_api_item_returns t :
  is_Some (t !! "title") → is_Some (t !! "id") →
  ∃ it, _convert_api_item t = Ok it.
Proof.
  intros [title Ht] [id Hi]. unfold _convert_api_item.
  destruct (convert_api_item_due t) as [d ->]. simpl. unfold getitem.
  rewrite Ht, Hi. simpl. by eexists.
Qed.

Lemma convert_api_item_raise t e :
  _convert_api_item t = Raise e →
  (e = KeyError "title" ∧ t !! "title" = None)
  ∨ (e = KeyError "id" ∧ t !! "id" = None).
Proof.
  unfold _convert_api_item.
  destruct (convert_api_item_due t) as [d ->]. simpl. unfold getitem.
  destruct (t !! "title") as [title|]; simpl; [|intros [= <-]; by left].
  destruct (t !! "id") as [id|]; simpl; [discriminate|].
  intros [= <-]. by right.
Qed.

Lemma order_tasks_returns tasks :
  Forall (fun t => is_Some (t !! "title")) tasks → uniform_ties tasks →
  ∃ out, _order_tasks tasks = Ok out.
Proof.
  intros Htitle Huni.
  destruct (sorted_tasks (filter (fun t => is_completed t = true) tasks))
    as (finished & Hf & _);
    [by apply Forall_title_filter|by apply uniform_ties_filter|].
  destruct (sorted_tasks (filter (fun t => is_completed t = false) tasks))
    as (pending & Hp & _);
    [by apply Forall_title_filter|by apply uniform_ties_filter|].
  exists (finished ++ pending). unfold _order_tasks. by rewrite Hp, Hf.
Qed.

Lemma order_tasks_perm tasks out : _order_tasks tasks = Ok out → out ≡ₚ tasks.
Proof.
  intros (finished & pending & -> & Hf%sorted_perm
          & Hp%sorted_perm)%order_tasks_inv.
  by rewrite Hf, Hp, filter_flag_perm.
Qed.

Lemma order_tasks_raise tasks e :
  _order_tasks tasks = Raise e → e = KeyError "title" ∨ e = TypeError.
Proof.
  unfold _order_tasks.
  intros [Hr|(pending & _ & [Hr|(finished & _ & [=])]%bind_raise)]%bind_raise;
    by eapply sorted_raise.
Qed.

Lemma todo_items_inv tasks items :
  todo_items (Some tasks) = Ok (Some items) →
  ∃ ordered, _order_tasks tasks = Ok ordered
             ∧ Forall2 (fun t it => _convert_api_item t = Ok it) ordered items.
Proof.
  unfold todo_items.
  intros (ordered & Ho & (its & Hits & [= <-])%bind_ok)%bind_ok.
  exists ordered. split; [done|]. by apply map_result_ok.
Qed.

(** X9.  With a snapshot, the listing is returned exactly when every
    record has a title and an id and the tasks of equal flags have dues
    of one kind; otherwise it raises [KeyError] for the title or the id,
    or [TypeError]. *)
Theorem todo_items_returns_iff tasks :
  ((∃ items, todo_items (Some tasks) = Ok (Some items))
   ↔ Forall (fun t => is_Some (t !! "title") ∧ is_Some (t !! "id")) tasks
     ∧ uniform_ties tasks)
  ∧ (∀ e, todo_items (Some tasks) = Raise e →
          e = KeyError "title" ∨ e = KeyError "id" ∨ e = TypeError).
Proof.
  split; [split|].
  - intros [items (ordered & Ho & Hits)%todo_items_inv]. split.
    + pose proof (order_tasks_perm _ _ Ho) as Hperm.
      rewrite <- Hperm. apply Forall_forall. intros t Ht.
      apply list_elem_of_lookup in Ht as [i Hi].
      destruct (Forall2_lookup_l _ _ _ _ _ Hits Hi) as (it & _ & Hit).
      apply convert_api_item_ok in Hit as (-> & -> & Hid & _). by split.
    + by eapply order_tasks_uniform_ties.
  - intros [Hkeys Huni].
    destruct (order_tasks_returns tasks) as [ordered Ho]; [|done|].
    { eapply Forall_impl; [exact Hkeys|]. by intros t [? _]. }
    destruct (map_result_total _convert_api_item ordered) as [items Hits].
    { rewrite (order_tasks_perm _ _ Ho). eapply Forall_impl; [exact Hkeys|].
      intros t [? ?]. by apply convert_api_item_returns. }
    exists items. unfold todo_items. rewrite Ho. simpl. by rewrite Hits.
  - intros e. unfold todo_items.
    intros [Hr|(ordered & _ & [Hr|(its & _ & [=])]%bind_raise)]%bind_raise.
    + destruct (order_tasks_raise _ _ Hr) as [->| ->]; auto.
    + apply map_result_raise in Hr as (t & _ & Hr).
      destruct (convert_api_item_raise _ _ Hr) as [[-> _]|[-> _]]; auto.
Qed.

(** X10.  The listing shows every record of the snapshot exactly once,
    with its title, id and notes as summary, uid and description, and no
    pending item stands before a completed one. *)
Theorem todo_items_listing tasks items :
  todo_items (Some tasks) = Ok (Some items) →
  (fun it => (Some (summary it), uid it, description it)) <$> items
    ≡ₚ (fun t => (t !! "title", t !! "id", t !! "notes")) <$> tasks
  ∧ StronglySorted
      (fun a b => status b = Some COMPLETED → status a = Some COMPLETED) items.
Proof.
  intros (ordered & Ho & Hits)%todo_items_inv. split.
  - rewrite <- (order_tasks_perm _ _ Ho).
    clear Ho. induction Hits as [|t it ordered items Hit _ IH]; [done|].
    rewrite !fmap_cons, IH.
    by apply convert_api_item_ok in Hit as (-> & -> & _ & -> & _).
  - apply order_tasks_inv in Ho as (finished & pending & -> & Hf & Hp).
    apply sorted_flag in Hf, Hp.
    apply Forall2_app_inv_l in Hits as (its1 & its2 & H1 & H2 & ->).
    assert (∀ b l its,
              Forall (fun t => is_completed t = b) l →
              Forall2 (fun t it => _convert_api_item t = Ok it) l its →
              Forall (fun it => status it
                        = Some (if b then COMPLETED else NEEDS_ACTION)) its)
      as Hstatus.
    { intros b l its Hl Hc. induction Hc as [|t it l its Hit _ IH]; [done|].
      apply Forall_cons in Hl as [Ht Hl]. constructor; [|by apply IH].
      apply convert_api_item_ok in Hit as (_ & _ & _ & _ & ->).
      by rewrite Ht. }
    pose proof (Hstatus _ _ _ Hf H1) as Hs1.
    pose proof (Hstatus _ _ _ Hp H2) as Hs2.
    assert (∀ s (l : list TodoItem),
              Forall (fun it => status it = s) l →
              StronglySorted
                (fun a b => status b = Some COMPLETED
                            → status a = Some COMPLETED) l) as Hsame.
    { intros s l Hl. induction Hl as [|a l Ha Hl IH]; constructor; [done|].
      eapply Forall_impl; [exact Hl|]. intros b Hb. simpl. congruence. }
    apply StronglySorted_app. split; [|split].
    + intros a b Ha Hb. rewrite Forall_forall in Hs1. by rewrite (Hs1 a Ha).
    + by eapply Hsame.
    + by eapply Hsame.
Qed.

End listing.

Lemma todo_items_listing_witness :
  (fun it => (Some (summary it), uid it, description it))
    <$> [ mkTodoItem "Filed taxes" (Some "2") (Some COMPLETED) None None;
          mkTodoItem "Urgent meeting" (Some "3") (Some NEEDS_ACTION) None None;
          mkTodoItem "Another task on 2024/01/02" (Some "4")
            (Some NEEDS_ACTION) (Some (mkdt 2024 1 2 0 0 0 0 None)) None;
          mkTodoItem "Regular task" (Some "1") (Some NEEDS_ACTION) None None ]
    ≡ₚ (fun t : gmap string string => (t !! "title", t !! "id", t !! "notes"))
         <$> sample_tasks
  ∧ StronglySorted
      (fun a b => status b = Some COMPLETED → status a = Some COMPLETED)
      [ mkTodoItem "Filed taxes" (Some "2") (Some COMPLETED) None None;
        mkTodoItem "Urgent meeting" (Some "3") (Some NEEDS_ACTION) None None;
        mkTodoItem "Another task on 2024/01/02" (Some "4")
          (Some NEEDS_ACTION) (Some (mkdt 2024 1 2 0 0 0 0 None)) None;
        mkTodoItem "Regular task" (Some "1") (Some NEEDS_ACTION) None None ].
Proof.
  apply (todo_items_listing sample_tasks). vm_compute. reflexivity.
Defined.

(** ** The update of one item *)

Section update.
Context `{dt_util}.
Implicit Types (t : gmap string string) (tasks : list (gmap string string)).

Lemma find_by_id_some tasks (u : option string) t :
  find_by_id tasks u = Ok (Some t) → t ∈ tasks ∧ t !! "id" = u ∧ is_Some u.
Proof.
  induction tasks as [|i tasks IH]; simpl; [discriminate|].
  unfold getitem. destruct (i !! "id") as [id|] eqn:Hid; simpl; [|discriminate].
  case_bool_decide as Hu.
  - intros [= <-]. subst u. repeat split; [left|done|by eexists].
  - intros (Hin & Ht & Hsome)%IH. repeat split; [by right|done|done].
Qed.

Lemma find_by_id_known tasks (u : option string) :
  Forall (fun t => is_Some (t !! "id")) tasks →
  u ∈ (fun t => t !! "id") <$> tasks →
  ∃ t, find_by_id tasks u = Ok (Some t).
Proof.
  induction 1 as [|i tasks [id Hid] _ IH]; simpl.
  - by intros ?%elem_of_nil.
  - unfold getitem. rewrite Hid. simpl. case_bool_decide as Hu; [by eexists|].
    intros [Hhd|Htl]%elem_of_cons; [congruence|by apply IH].
Qed.

Lemma find_by_id_unknown tasks (u : option string) :
  Forall (fun t => is_Some (t !! "id")) tasks →
  u ∉ (fun t => t !! "id") <$> tasks →
  find_by_id tasks u = Ok None.
Proof.
  induction 1 as [|i tasks [id Hid] _ IH]; simpl; [done|].
  unfold getitem. rewrite Hid. simpl. intros Hnot.
  apply not_elem_of_cons in Hnot as [Hne Hnot].
  rewrite bool_decide_eq_false_2 by congruence. by apply IH.
Qed.

Lemma find_by_id_raise tasks (u : option string) e :
  find_by_id tasks u = Raise e →
  e = KeyError "id"
  ∧ ∃ pre t post,
      tasks = pre ++ t :: post ∧ t !! "id" = None
      ∧ Forall (fun i => is_Some (i !! "id") ∧ i !! "id" ≠ u) pre.
Proof.
  induction tasks as [|i tasks IH]; simpl; [discriminate|].
  unfold getitem. destruct (i !! "id") as [id|] eqn:Hid; simpl.
  - case_bool_decide as Hu; [discriminate|].
    intros (-> & pre & t & post & -> & Ht & Hpre)%IH. split; [done|].
    exists (i :: pre), t, post. repeat split; [done|].
    constructor; [|done]. rewrite Hid. split; [by eexists|done].
  - intros [= <-]. split; [done|]. exists [], i, tasks. by repeat split.
Qed.

(** X11.  On a snapshot whose records all have an id,
    [async_update_todo_item] sends a patch exactly when the uid of the
    item is the id of a record.  The patch is sent once, with the payload
    made from the item alone, and is followed by a refresh when it
    succeeds and by a logged error that is raised again when it fails.
    With an unknown uid nothing is sent and nothing is raised. *)
Theorem update_todo_item_patches_iff_known
    (patch : string → option string → gmap string string → option string)
    (task_list_id : string) tasks (item : TodoItem) :
  Forall (fun t => is_Some (t !! "id")) tasks →
  async_update_todo_item patch task_list_id (Some tasks) item
  = if bool_decide (uid item ∈ (fun t => t !! "id") <$> tasks)
    then
      match patch task_list_id (uid item) (_convert_todo_item item) with
      | None =>
          ([Patch task_list_id (uid item) (_convert_todo_item item); Refresh],
           Returned)
      | Some err =>
          ([Patch task_list_id (uid item) (_convert_todo_item item);
            LogError err], RaisedApiError err)
      end
    else ([], Returned).
Proof.
  intros Hids. unfold async_update_todo_item. case_bool_decide as Hin.
  - destruct (find_by_id_known _ _ Hids Hin) as [t Ht]. rewrite Ht.
    apply find_by_id_some in Ht as (_ & Hid & [id Hu]).
    rewrite bool_decide_eq_false_2; [done|].
    intros ->. rewrite Hu in Hid. by rewrite lookup_empty in Hid.
  - by rewrite (find_by_id_unknown _ _ Hids Hin).
Qed.

(** X12.  [async_update_todo_item] raises before any remote call in two
    cases only: without a snapshot, with [TypeError], and with
    [KeyError] for the id when a record without id stands in the snapshot
    before every record whose id is the uid of the item.  The records
    behind the first match are not read. *)
Theorem update_todo_item_raises
    (patch : string → option string → gmap string string → option string)
    (task_list_id : string) (data : option (list (gmap string string)))
    (item : TodoItem) :
  (∀ e, (async_update_todo_item patch task_list_id data item).2 = Raised e →
        (async_update_todo_item patch task_list_id data item).1 = []
        ∧ ((data = None ∧ e = TypeError)
           ∨ (e = KeyError "id"
              ∧ ∃ pre t post,
                  data = Some (pre ++ t :: post) ∧ t !! "id" = None
                  ∧ Forall (fun i => is_Some (i !! "id")
                                     ∧ i !! "id" ≠ uid item) pre)))
  ∧ (∀ pre t post,
       t !! "id" = uid item → is_Some (uid item) →
       Forall (fun i => is_Some (i !! "id") ∧ i !! "id" ≠ uid item) pre →
       async_update_todo_item patch task_list_id (Some (pre ++ t :: post)) item
       = async_update_todo_item patch task_list_id (Some [t]) item).
Proof.
  split.
  - intros e. unfold async_update_todo_item.
    destruct data as [tasks|]; simpl; [|intros [= <-]; split; [done|by left]].
    destruct (find_by_id tasks (uid item)) as [[t|]|e'] eqn:Hfind.
    + case_bool_decide; [discriminate|].
      by destruct (patch _ _ _).
    + discriminate.
    + simpl. intros [= ->]. split; [done|]. right.
      apply find_by_id_raise in Hfind as (-> & pre & t & post & -> & ? & ?).
      split; [done|]. by exists pre, t, post.
  - intros pre t post Ht [id Hu] Hpre. unfold async_update_todo_item.
    assert (find_by_id (pre ++ t :: post) (uid item) = Ok (Some t)) as ->.
    { induction Hpre as [|i pre [[j Hj] Hne] _ IH]; simpl.
      - unfold getitem. rewrite Ht, Hu. simpl.
        by rewrite bool_decide_eq_true_2.
      - unfold getitem. rewrite Hj. simpl.
        rewrite bool_decide_eq_false_2 by congruence. exact IH. }
    simpl. unfold getitem. rewrite Ht, Hu. simpl.
    by rewrite (bool_decide_eq_true_2 (Some id = Some id)).
Qed.

End update.

Lemma update_todo_item_patches_iff_known_witness :
  async_update_todo_item (fun _ _ _ => None) "list" (Some sample_tasks)
    (mkTodoItem "Urgent meeting at 10:00" (Some "3") (Some COMPLETED) None None)
  = if bool_decide
         (Some "3" ∈ (fun t : gmap string string => t !! "id") <$> sample_tasks)
    then
      ([Patch "list" (Some "3")
          (_convert_todo_item
             (mkTodoItem "Urgent meeting at 10:00" (Some "3") (Some COMPLETED)
                None None));
        Refresh], Returned)
    else ([], Returned).
Proof.
  apply (update_todo_item_patches_iff_known (fun _ _ _ => None) "list"
           sample_tasks
           (mkTodoItem "Urgent meeting at 10:00" (Some "3") (Some COMPLETED)
              None None)).
  unfold sample_tasks.
  repeat (apply List.Forall_cons; [by eexists|]). apply List.Forall_nil.
Defined.

(** ** From an item to a record and back *)

Section round_trip.
Context `{dt_util}.

Lemma status_round_trip (s : option TodoItemStatus) :
  TODO_STATUS_MAP (TODO_STATUS_MAP_INV s) = default NEEDS_ACTION s.
Proof. by destruct s as [[]|]. Qed.

(** X13.  An item sent as a payload and read back under an id is
    returned with its summary, with that id as uid, with a missing status
    as [NEEDS_ACTION] and with an empty description as none.  Its due is
    the parse of the string that was sent; an item without due comes back
    with the date that the extractor finds in its summary and
    description. *)
Theorem convert_round_trip (item : TodoItem) (id : string) :
  ∃ due',
    match due item with
    | Some d => due' = parse_datetime (_format_due_datetime (as_utc d))
    | None =>
        ∃ t, _extract_date_time
               (summary item +:+ " " +:+ default "" (description item))
             = Ok (due', t)
    end
    ∧ _convert_api_item (<["id" := id]> (_convert_todo_item item))
      = Ok {| summary := summary item;
              uid := Some id;
              status := Some (default NEEDS_ACTION (status item));
              due := due';
              description := match description item with
                             | Some "" => None
                             | other => other
                             end |}.
Proof.
  unfold _convert_api_item, _convert_todo_item, getitem.
  destruct item as [title u s [d|] [[|c notes]|]]; simpl;
    simplify_map_eq; rewrite ?status_round_trip.
  all: try (eexists; split; [reflexivity|]; simpl; done).
  all: match goal with
       | |- context [_extract_date_time ?x] =>
           destruct (extract_date_time_total x) as [d' Hx]
       end; rewrite Hx; simpl; exists d'; split; eauto.
Qed.

End round_trip.

Section round_trip_identity.
Context `{dt_util}.

Lemma no_digit_app (a b : string) :
  no_digit a → no_digit b → no_digit (a +:+ b).
Proof.
  unfold no_digit. rewrite list_ascii_of_string_app, Forall_app. by split.
Qed.

(** X14.  An item that has a uid and a status, no due, a description
    that is not the empty string, and no decimal digit in its summary and
    description is returned unchanged when it is sent as a payload and
    read back under its uid. *)
Theorem convert_round_trip_identity (item : TodoItem) (id : string) :
  uid item = Some id → is_Some (status item) → due item = None →
  description item ≠ Some "" →
  no_digit (summary item) → no_digit (default "" (description item)) →
  _convert_api_item (<["id" := id]> (_convert_todo_item item)) = Ok item.
Proof.
  intros Hu [s Hs] Hd Hne Hsum Hnotes.
  assert (_extract_date_time
            (summary item +:+ " " +:+ default "" (description item))
          = Ok (None, None)) as Hex.
  { apply extract_date_time_no_digit. apply no_digit_app; [done|].
    apply (no_digit_app " "); [|done]. unfold no_digit. simpl.
    by repeat constructor. }
  revert Hex. unfold _convert_api_item, _convert_todo_item, getitem.
  destruct item as [title u st d [[|c notes]|]]; simpl in *; subst;
    simplify_map_eq; try done; intros ->; simpl; by destruct s.
Qed.

End round_trip_identity.

Lemma convert_round_trip_identity_witness :
  _convert_api_item
    (<["id" := "7"]>
       (_convert_todo_item
          (mkTodoItem "Water the plants" (Some "7") (Some COMPLETED) None
             (Some "Urgent: the ferns first"))))
  = Ok (mkTodoItem "Water the plants" (Some "7") (Some COMPLETED) None
          (Some "Urgent: the ferns first")).
Proof.
  apply (convert_round_trip_identity
           (mkTodoItem "Water the plants" (Some "7") (Some COMPLETED) None
              (Some "Urgent: the ferns first")) "7");
    try done; try (by eexists); unfold no_digit; vm_compute; repeat constructor.
Defined.

(** ** A date and a time in one text *)

Lemma replace_hour_minute_ok (d tm : datetime) :
  valid d → valid tm →
  replace_hour_minute d (hour tm) (minute tm)
  = Ok (mkdt (year d) (month d) (day d) (hour tm) (minute tm) (second d)
          (microsecond d) (tzinfo d)).
Proof.
  unfold valid, replace_hour_minute, new_datetime, valid_fields.
  intros Hd Htm.
  repeat (apply andb_prop in Hd as [Hd ?]).
  repeat (apply andb_prop in Htm as [Htm ?]).
  repeat match goal with H : _ = true |- _ => rewrite H; clear H end.
  done.
Qed.

(** X15.  When the loop over the date patterns finds a date and the time
    match parses, [_extract_date_time] returns the day of that date with
    the hour and the minute of the parsed time, and the time match as it
    stands in the text: the replacement of the hour and the minute never
    fails. *)
Theorem extract_date_time_combines (text t : string) (d tm : datetime) :
  date_loop DATE_PATTERNS text = Ok (Some d) →
  re_search TIME_PATTERN text = Some t →
  parse_time_obj t = Ok tm →
  _extract_date_time text
  = Ok (Some (mkdt (year d) (month d) (day d) (hour tm) (minute tm) 0 0 None),
        Some t).
Proof.
  intros Hloop Ht Hp. unfold _extract_date_time. rewrite Hloop, Ht. simpl.
  destruct (date_loop_ok _ _ Hloop) as (Hv & Htz & Hs & Hus & _).
  assert (valid tm) as Hvt.
  { unfold parse_time_obj in Hp.
    destruct (_ || _); by apply strptime_ok in Hp as [? _]. }
  destruct (String.eqb_spec t "") as [->|_].
  - by vm_compute in Hp.
  - rewrite Hp. simpl. rewrite (replace_hour_minute_ok _ _ Hv Hvt). simpl.
    by rewrite Htz, Hs, Hus.
Qed.

Lemma extract_date_time_combines_witness :
  _extract_date_time "Dentist on 27 Nov 2024 at 6:30 PM"
  = Ok (Some (mkdt (year (mkdt 2024 11 27 0 0 0 0 None))
                (month (mkdt 2024 11 27 0 0 0 0 None))
                (day (mkdt 2024 11 27 0 0 0 0 None))
                (hour (mkdt 1900 1 1 18 30 0 0 None))
                (minute (mkdt 1900 1 1 18 30 0 0 None)) 0 0 None),
        Some "6:30 PM").
Proof.
  apply (extract_date_time_combines "Dentist on 27 Nov 2024 at 6:30 PM"
           "6:30 PM" (mkdt 2024 11 27 0 0 0 0 None)
           (mkdt 1900 1 1 18 30 0 0 None));
    vm_compute; reflexivity.
Defined.
(** ** A date written with a comma *)

Lemma rejects_sound (ic : bool) (c : ascii) (r : regex) (w : list ascii) :
  rejects ic c r = true → lang ic r w → c ∉ w.
Proof.
  revert w. induction r as [|d| | |lo hi|cs|r1 IH1 r2 IH2|r1 IH1 r2 IH2
                            |lo hi r IH|name r IH]; simpl; intros w Hr Hw.
  - subst w. apply not_elem_of_nil.
  - destruct Hw as (x & -> & Hx). intros ->%list_elem_of_singleton.
    by rewrite Hx in Hr.
  - destruct Hw as (x & -> & Hx). intros ->%list_elem_of_singleton.
    by rewrite Hx in Hr.
  - destruct Hw as (x & -> & Hx). intros ->%list_elem_of_singleton.
    by rewrite Hx in Hr.
  - destruct Hw as (x & -> & Hx). intros ->%list_elem_of_singleton.
    by rewrite Hx in Hr.
  - destruct Hw as (x & -> & Hx). intros ->%list_elem_of_singleton.
    by rewrite Hx in Hr.
  - apply andb_prop in Hr as [H1 H2].
    destruct Hw as (w1 & w2 & -> & Hw1 & Hw2).
    rewrite elem_of_app. intros [?|?]; [by eapply IH1|by eapply IH2].
  - apply andb_prop in Hr as [H1 H2].
    destruct Hw as [Hw|Hw]; [by eapply IH1|by eapply IH2].
  - destruct Hw as (ws & -> & _ & _ & Hws).
    induction Hws as [|x ws Hx _ IHws]; simpl; [apply not_elem_of_nil|].
    rewrite elem_of_app. intros [?|?]; [by eapply IH|done].
  - by apply IH.
Qed.

Lemma strptime_rejects (data format : string) (r : regex) (c : ascii) :
  format_pattern false (String.list_ascii_of_string format) = Ok r →
  rejects true c r = true →
  c ∈ String.list_ascii_of_string data →
  strptime data format = Raise ValueError.
Proof.
  intros Hfmt Hr Hc. unfold strptime. rewrite Hfmt. simpl.
  unfold re_match_ic.
  destruct (rmatch _ _ _ _ _) as [[[|? ?] caps]|] eqn:Hm; try done.
  apply rmatch_sound in Hm as (w & s' & new & Hs & Hw & _ & [= -> _]).
  rewrite app_nil_r in Hs. rewrite Hs in Hc.
  by destruct (rejects_sound _ _ _ _ Hr Hw).
Qed.

Lemma strptime_comma (pattern : regex) (format data : string) :
  (pattern, format) ∈ DATE_PATTERNS →
  ","%char ∈ String.list_ascii_of_string data →
  strptime data format = Raise ValueError.
Proof.
  intros Hin Hc. unfold DATE_PATTERNS in Hin.
  repeat (apply elem_of_cons in Hin as [[= -> ->]|Hin];
          [eapply (strptime_rejects _ _ _ ","%char);
           [by vm_compute|by vm_compute|done]|]).
  by apply elem_of_nil in Hin.
Qed.

(** X16.  No format of [DATE_PATTERNS] accepts a comma: the parse of a
    date match that holds one raises [ValueError].  A date that
    [_extract_date_time] returns is therefore parsed from a match without
    comma, and the comma that the fifth pattern allows after the day is
    never part of it. *)
Theorem date_with_comma_never_parses :
  (∀ pattern format data,
     (pattern, format) ∈ DATE_PATTERNS →
     ","%char ∈ String.list_ascii_of_string data →
     strptime data format = Raise ValueError)
  ∧ (∀ text d t,
       _extract_date_time text = Ok (Some d, t) →
       ∃ pattern format m,
         (pattern, format) ∈ DATE_PATTERNS
         ∧ re_search pattern text = Some m
         ∧ is_ok (strptime m format) = true
         ∧ ","%char ∉ String.list_ascii_of_string m).
Proof.
  split; [apply strptime_comma|].
  intros text d t. unfold _extract_date_time.
  intros ([d0|] & Hloop & Hrest)%bind_ok.
  - apply date_loop_some in Hloop as (p & f & m & Hin & Hm & Hp).
    exists p, f, m. repeat split; try done; [by rewrite Hp|].
    intros Hc. by rewrite (strptime_comma _ _ _ Hin Hc) in Hp.
  - by destruct (re_search TIME_PATTERN text).
Qed.

(** A date with a comma after the day is not extracted, and the same
    date without the comma is. *)
Example extract_comma_date :
  _extract_date_time "Pay rent on Nov 27, 2024" = Ok (None, None)
  ∧ _extract_date_time "Pay rent on Nov 27 2024"
    = Ok (Some (mkdt 2024 11 27 0 0 0 0 None), None).
Proof. by vm_compute. Qed.

(** ** The key of a record and the item it is shown as *)

Section key_and_item.
Context `{dt_util}.

(** X17.  Unless its [due] is the empty string, a record is ordered by
    what its item shows: the key is the completed status of the item,
    the absence of a priority phrase in its summary and description, and
    its due.  An item without due counts as [datetime.max] when the
    record has no [due], and has no comparable due when the record has a
    [due] that does not parse. *)
Theorem sort_key_of_listed_item (task : gmap string string)
    (item : TodoItem) (k : sort_key_t) :
  task !! "due" ≠ Some "" →
  _convert_api_item task = Ok item → sort_key task = Ok k →
  k = (match status item with Some COMPLETED => true | _ => false end,
       negb (_is_priority_task (summary item) (description item)),
       match task !! "due" with
       | Some _ => due item
       | None => Some (default datetime_max (due item))
       end).
Proof.
  intros Hdue Hitem Hk.
  pose proof (convert_api_item_ok _ _ Hitem) as (Ht & _ & _ & Hn & Hs).
  rewrite Hs. revert Hitem Hk.
  unfold _convert_api_item, sort_key, get_due_date, getitem.
  rewrite Ht, Hn. simpl.
  destruct (task !! "due") as [[|c s]|] eqn:Hd; [done| |]; simpl.
  - destruct (task !! "id") as [id|]; simpl; [|discriminate].
    intros [= <-] [= <-]. simpl. by destruct (is_completed task).
  - destruct (extract_date_time_total
                (summary item +:+ " " +:+ default "" (description item)))
      as [d' Hx].
    rewrite Hx. simpl.
    destruct (task !! "id") as [id|]; simpl; [|discriminate].
    intros [= <-] [= <-]. simpl. by destruct (is_completed task).
Qed.

End key_and_item.

Lemma sort_key_of_listed_item_witness :
  (false, true, Some (mkdt 2024 1 2 0 0 0 0 None))
  = (match status (mkTodoItem "Another task on 2024/01/02" (Some "4")
                     (Some NEEDS_ACTION)
                     (Some (mkdt 2024 1 2 0 0 0 0 None)) None) with
     | Some COMPLETED => true
     | _ => false
     end,
     negb (_is_priority_task
             (summary (mkTodoItem "Another task on 2024/01/02" (Some "4")
                         (Some NEEDS_ACTION)
                         (Some (mkdt 2024 1 2 0 0 0 0 None)) None))
             (description (mkTodoItem "Another task on 2024/01/02" (Some "4")
                             (Some NEEDS_ACTION)
                             (Some (mkdt 2024 1 2 0 0 0 0 None)) None))),
     match mk_task "4" "Another task on 2024/01/02" "needsAction" !! "due" with
     | Some _ =>
         due (mkTodoItem "Another task on 2024/01/02" (Some "4")
                (Some NEEDS_ACTION) (Some (mkdt 2024 1 2 0 0 0 0 None)) None)
     | None =>
         Some (default datetime_max
                 (due (mkTodoItem "Another task on 2024/01/02" (Some "4")
                         (Some NEEDS_ACTION)
                         (Some (mkdt 2024 1 2 0 0 0 0 None)) None)))
     end).
Proof.
  apply (sort_key_of_listed_item
           (mk_task "4" "Another task on 2024/01/02" "needsAction")
           (mkTodoItem "Another task on 2024/01/02" (Some "4")
              (Some NEEDS_ACTION) (Some (mkdt 2024 1 2 0 0 0 0 None)) None)
           (false, true, Some (mkdt 2024 1 2 0 0 0 0 None)));
    [by vm_compute|vm_compute; reflexivity|vm_compute; reflexivity].
Defined.
(** ** A time with [AM] or [PM] right after the minutes *)

Lemma demands_space_sound (ic : bool) (r : regex) (w : list ascii) :
  demands_space r = true → lang ic r w →
  Exists (fun c => is_space c = true) w.
Proof.
  revert w. induction r as [|d| | |lo hi|cs|r1 IH1 r2 IH2|r1 IH1 r2 IH2
                            |lo hi r IH|name r IH]; simpl; intros w Hr Hw;
    try discriminate.
  - destruct Hw as (x & -> & Hx). by constructor.
  - destruct Hw as (w1 & w2 & -> & Hw1 & Hw2). apply Exists_app.
    apply orb_prop in Hr as [Hr|Hr]; [left; by apply IH1|right; by apply IH2].
  - apply andb_prop in Hr as [H1 H2].
    destruct Hw as [Hw|Hw]; [by apply IH1|by apply IH2].
  - apply andb_prop in Hr as [Hlo Hr].
    destruct lo as [|lo]; [discriminate|].
    destruct Hw as (ws & -> & Hlen & _ & Hws).
    destruct Hws as [|x ws Hx _]; [simpl in Hlen; lia|].
    simpl. apply Exists_app. left. by apply IH.
  - by apply IH.
Qed.

Lemma strptime_demands_space (data format : string) (r : regex) :
  format_pattern false (String.list_ascii_of_string format) = Ok r →
  demands_space r = true →
  Forall (fun c => is_space c = false) (String.list_ascii_of_string data) →
  strptime data format = Raise ValueError.
Proof.
  intros Hfmt Hr Hdata. unfold strptime. rewrite Hfmt. simpl.
  unfold re_match_ic.
  destruct (rmatch _ _ _ _ _) as [[[|? ?] caps]|] eqn:Hm; try done.
  apply rmatch_sound in Hm as (w & s' & new & Hs & Hw & _ & [= -> _]).
  rewrite app_nil_r in Hs. rewrite Hs in Hdata.
  apply (demands_space_sound _ _ _ Hr) in Hw.
  apply Exists_exists in Hw as (c & Hin & Hc).
  rewrite Forall_forall in Hdata. by rewrite (Hdata c Hin) in Hc.
Qed.

Lemma lstrip_no_space (l : list ascii) :
  Forall (fun c => is_space c = false) l → lstrip l = l.
Proof. destruct 1 as [|c l Hc _]; simpl; [done|]. by rewrite Hc. Qed.

Lemma strip_no_space (s : string) :
  Forall (fun c => is_space c = false) (String.list_ascii_of_string s) →
  strip s = s.
Proof.
  intros Hs. unfold strip. rewrite (lstrip_no_space _ Hs).
  rewrite lstrip_no_space by by apply Forall_reverse.
  rewrite reverse_involutive. apply String.string_of_list_ascii_of_string.
Qed.

(** X18.  A time match that holds [AM] or [PM] and no white space, as
    [6:30PM], never parses: the 12-hour format asks for white space
    before the half of the day.  The date found in the text is returned
    at midnight with that time match. *)
Theorem time_without_blank_never_parses (text t : string) (d : datetime) :
  date_loop DATE_PATTERNS text = Ok (Some d) →
  re_search TIME_PATTERN text = Some t →
  str_in "AM" t || str_in "PM" t = true →
  Forall (fun c => is_space c = false) (String.list_ascii_of_string t) →
  parse_time_obj t = Raise ValueError
  ∧ _extract_date_time text = Ok (Some d, Some t)
  ∧ hour d = 0 ∧ minute d = 0.
Proof.
  intros Hloop Ht Hhalf Hblank.
  assert (parse_time_obj t = Raise ValueError) as Hp.
  { unfold parse_time_obj. rewrite Hhalf, (strip_no_space _ Hblank).
    by eapply strptime_demands_space; [by vm_compute|by vm_compute|]. }
  split; [done|]. split.
  - unfold _extract_date_time. rewrite Hloop, Ht. simpl.
    destruct (String.eqb t ""); [done|]. by rewrite Hp.
  - by destruct (date_loop_ok _ _ Hloop) as (_ & _ & _ & _ & ? & ?).
Qed.

Lemma time_without_blank_never_parses_witness :
  parse_time_obj "6:30PM" = Raise ValueError
  ∧ _extract_date_time "Dinner on 27 Nov 2024 at 6:30PM"
    = Ok (Some (mkdt 2024 11 27 0 0 0 0 None), Some "6:30PM")
  ∧ hour (mkdt 2024 11 27 0 0 0 0 None) = 0
  ∧ minute (mkdt 2024 11 27 0 0 0 0 None) = 0.
Proof.
  apply (time_without_blank_never_parses "Dinner on 27 Nov 2024 at 6:30PM"
           "6:30PM" (mkdt 2024 11 27 0 0 0 0 None));
    [vm_compute; reflexivity|vm_compute; reflexivity|vm_compute; reflexivity|].
  vm_compute. repeat constructor.
Defined.
